(** * ObsidianBackLinker: a shallow embedding of [app.py]

    The program scans a vault of markdown notes, extracts the notes each
    one refers to, builds the reverse index and writes a
    [## Backlinks] section into every note that is referred to.

    A Python [str] is a sequence of code points; it is modelled as a
    list of characters ([list ascii], code points below 256).  Files are
    opened in text mode, so the vault maps a path to the decoded text
    that [f.read()] returns and [f.write] stores. *)

From Stdlib Require Import Ascii String.
From stdpp Require Import gmap strings list fin_maps.

Local Open Scope list_scope.

Abbreviation str := (list ascii).

(** Literals are written as Rocq strings. *)
Definition txt (s : string) : str := list_ascii_of_string s.

Definition NL : ascii := "010"%char.

(** ** Strings *)

Module Str.

(** [s.startswith(p)], returning what follows the prefix. *)
Fixpoint strip_prefix (p s : str) : option str :=
  match p, s with
  | [], _ => Some s
  | a :: p', b :: s' => if decide (a = b) then strip_prefix p' s' else None
  | _ :: _, [] => None
  end.

Definition startswith (s p : str) : bool :=
  match strip_prefix p s with Some _ => true | None => false end.

Definition endswith (s p : str) : bool :=
  startswith (reverse s) (reverse p).

(** [p in s]: [p] occurs somewhere in [s]. *)
Fixpoint occurs (p s : str) : bool :=
  startswith s p ||
  match s with
  | [] => false
  | _ :: s' => occurs p s'
  end.

(** [p] starts at one of the positions of [pre] in [pre ++ t]. *)
Fixpoint starts_within (p pre t : str) : bool :=
  match pre with
  | [] => false
  | _ :: pre' => startswith (pre ++ t) p || starts_within p pre' t
  end.

(** The characters before the first occurrence of [c]; the whole
    string when there is none. *)
Fixpoint before_char (c : ascii) (s : str) : str :=
  match s with
  | [] => []
  | a :: s' => if decide (a = c) then [] else a :: before_char c s'
  end.

End Str.

(** ** The fragment of [re] that app.py uses

    A backtracking matcher in continuation-passing style, as CPython's
    engine explores the alternatives: literal text, the lazy [.*?],
    alternation, a greedy optional group, [$], the two negative
    look-arounds and one capturing group. *)

Module Re.

Inductive regex : Type :=
| Lit (s : str)               (* escaped literal text *)
| LazyDots (dotall : bool)    (* .*?  ; '.' excludes newline unless DOTALL *)
| Seq (r1 r2 : regex)
| Alt (r1 r2 : regex)         (* r1|r2, r1 first *)
| Opt (r : regex)             (* (?:r)? , greedy *)
| Eos                         (* $ without MULTILINE *)
| NotBehind (s : str)         (* (?<!s) *)
| NotAhead (s : str)          (* (?!s) *)
| Group (r : regex).          (* ( r ), group 1 *)

(** A position in the subject: the text already passed (most recent
    character first), the text ahead, and what group 1 captured. *)
Record cursor : Type := Cursor {
  seen : str;
  ahead : str;
  group1 : option str
}.

(** ['.'] *)
Definition dot (dotall : bool) (a : ascii) : bool :=
  dotall || negb (bool_decide (a = NL)).

(** [$]: at the end, or just before a newline that ends the string. *)
Definition at_eos (s : str) : bool :=
  match s with
  | [] => true
  | [a] => bool_decide (a = NL)
  | _ => false
  end.

Section Matcher.
Context {R : Type}.

(** [.*?] takes as few characters as the continuation accepts. *)
Fixpoint lazy_dots (dotall : bool) (k : cursor → option R)
    (sn ah : str) (g : option str) : option R :=
  match k (Cursor sn ah g) with
  | Some r => Some r
  | None =>
      match ah with
      | [] => None
      | a :: ah' =>
          if dot dotall a then lazy_dots dotall k (a :: sn) ah' g else None
      end
  end.

Fixpoint run (r : regex) (c : cursor) (k : cursor → option R) : option R :=
  match r with
  | Lit s =>
      match Str.strip_prefix s (ahead c) with
      | Some ah' => k (Cursor (reverse s ++ seen c) ah' (group1 c))
      | None => None
      end
  | LazyDots dotall => lazy_dots dotall k (seen c) (ahead c) (group1 c)
  | Seq r1 r2 => run r1 c (λ c', run r2 c' k)
  | Alt r1 r2 =>
      match run r1 c k with
      | Some x => Some x
      | None => run r2 c k
      end
  | Opt r1 =>
      match run r1 c k with
      | Some x => Some x
      | None => k c
      end
  | Eos => if at_eos (ahead c) then k c else None
  | NotBehind s =>
      if Str.startswith (seen c) (reverse s) then None else k c
  | NotAhead s =>
      if Str.startswith (ahead c) s then None else k c
  | Group r1 =>
      run r1 c (λ c',
        let n := length (seen c') - length (seen c) in
        k (Cursor (seen c') (ahead c') (Some (reverse (take n (seen c'))))))
  end.
End Matcher.

(** A match that starts at the current position. *)
Definition match_here (r : regex) (sn ah : str) : option cursor :=
  run r (Cursor sn ah None) Some.

(** [re.search]: the leftmost start position that matches. *)
Fixpoint search_from (r : regex) (sn ah : str) : option (str * cursor) :=
  match match_here r sn ah with
  | Some c => Some (sn, c)
  | None =>
      match ah with
      | [] => None
      | a :: ah' => search_from r (a :: sn) ah'
      end
  end.

Definition search (r : regex) (s : str) : option (str * cursor) :=
  search_from r [] s.

(** The text of a match that started when [sn] had been passed. *)
Definition matched (sn : str) (c : cursor) : str :=
  reverse (take (length (seen c) - length sn) (seen c)).

(** [re.findall] for a pattern with one group: the captures of the
    successive non-overlapping matches, scanning left to right.  After
    a non-empty match the scan resumes at its end; after an empty one
    it moves on by one character. *)
Fixpoint findall_loop (fuel : nat) (r : regex) (sn ah : str) : list str :=
  match fuel with
  | 0 => []
  | S fuel' =>
      match match_here r sn ah with
      | Some c =>
          let g := default [] (group1 c) in
          if decide (length (ahead c) < length ah)
          then g :: findall_loop fuel' r (seen c) (ahead c)
          else match ah with
               | [] => [g]
               | a :: ah' => g :: findall_loop fuel' r (a :: sn) ah'
               end
      | None =>
          match ah with
          | [] => []
          | a :: ah' => findall_loop fuel' r (a :: sn) ah'
          end
      end
  end.

Definition findall (r : regex) (s : str) : list str :=
  findall_loop (S (length s)) r [] s.

(** *** Replacement templates

    [re.sub] reads its replacement string as a template: a backslash
    starts an escape.  The pattern app.py substitutes has no group, so
    the only reference that resolves is group 0, the whole match
    (written [\g<0>]); a name that is an identifier raises
    [IndexError], every other reference raises [re.error].  This
    follows [parse_template] of CPython 3.11, code points below 256. *)

Inductive tpl_item : Type :=
| TChar (a : ascii)
| TMatch.                     (* group 0 *)

(** What the parser raises: [re.error], or [IndexError] for a group
    name that the pattern does not define. *)
Inductive tpl_failure : Type := BadTemplate | UnknownGroup.

Inductive attempt (A : Type) : Type :=
| Done (a : A)
| Failed (e : tpl_failure).
Arguments Done {A} a.
Arguments Failed {A} e.

Definition attempt_map {A B} (f : A → B) (x : attempt A) : attempt B :=
  match x with
  | Done a => Done (f a)
  | Failed e => Failed e
  end.

Definition code (a : ascii) : nat := nat_of_ascii a.

Definition in_range (lo hi : nat) (a : ascii) : bool :=
  bool_decide (lo ≤ code a ≤ hi).

Definition is_digit (a : ascii) : bool :=
  bool_decide (48 ≤ code a ≤ 57).
Definition is_octdigit (a : ascii) : bool :=
  bool_decide (48 ≤ code a ≤ 55).
Definition is_ascii_letter (a : ascii) : bool :=
  bool_decide (65 ≤ code a ≤ 90 ∨ 97 ≤ code a ≤ 122).
Definition digit (a : ascii) : nat := code a - 48.

Definition BACKSLASH : ascii := "092"%char.

(** The one-letter escapes of [ESCAPES]. *)
Definition escape_char (a : ascii) : option ascii :=
  if decide (a = "a"%char) then Some "007"%char
  else if decide (a = "b"%char) then Some "008"%char
  else if decide (a = "f"%char) then Some "012"%char
  else if decide (a = "n"%char) then Some "010"%char
  else if decide (a = "r"%char) then Some "013"%char
  else if decide (a = "t"%char) then Some "009"%char
  else if decide (a = "v"%char) then Some "011"%char
  else if decide (a = BACKSLASH) then Some BACKSLASH
  else None.

(** [str.isidentifier]: the underscore and the characters of
    [XID_Start], then those of [XID_Continue]. *)
Definition is_xid_start (a : ascii) : bool :=
  in_range 65 90 a || in_range 95 95 a || in_range 97 122 a ||
  in_range 170 170 a || in_range 181 181 a || in_range 186 186 a ||
  in_range 192 214 a || in_range 216 246 a || in_range 248 255 a.

Definition is_xid_continue (a : ascii) : bool :=
  is_xid_start a || in_range 48 57 a || in_range 183 183 a.

Definition is_identifier (name : str) : bool :=
  match name with
  | [] => false
  | a :: name' => is_xid_start a && forallb is_xid_continue name'
  end.

(** The white space that [int] strips. *)
Definition is_int_space (a : ascii) : bool :=
  in_range 9 13 a || in_range 32 32 a || in_range 133 133 a ||
  in_range 160 160 a.

Fixpoint lstrip (s : str) : str :=
  match s with
  | [] => []
  | a :: s' => if is_int_space a then lstrip s' else s
  end.

(** Zeros, with single underscores between them. *)
Fixpoint zeros (after_digit : bool) (s : str) : bool :=
  match s with
  | [] => after_digit
  | a :: s' =>
      if decide (a = "0"%char) then zeros true s'
      else if decide (a = "_"%char) then after_digit && zeros false s'
      else false
  end.

(** [int(name)] returns 0: white space around an optional sign and
    zeros.  Any other number is no group of the pattern. *)
Definition is_zero (name : str) : bool :=
  match lstrip (reverse (lstrip (reverse name))) with
  | [] => false
  | a :: s' =>
      if bool_decide (a = "+"%char) || bool_decide (a = "-"%char)
      then zeros false s'
      else zeros false (a :: s')
  end.

(** [parse_template name s]: [name] is [Some acc] while the parser is
    inside [\g<...>], holding the characters of the name read so far,
    most recent first.  The tokenizer reads one token ahead, so a
    backslash that ends the template is reported when the token before
    it is taken. *)
Fixpoint parse_template (name : option (list ascii)) (s : str)
    : attempt (list tpl_item) :=
  match name with
  | Some acc =>
      match s with
      | [] => Failed BadTemplate              (* missing >, missing group name *)
      | a :: s' =>
          if decide (a = ">"%char) then
            if bool_decide (s' = [BACKSLASH]) then Failed BadTemplate
            else if is_identifier (reverse acc) then Failed UnknownGroup
            else if is_zero (reverse acc)
            then attempt_map (cons TMatch) (parse_template None s')
            else Failed BadTemplate           (* bad character, invalid reference *)
          else if decide (a = BACKSLASH) then Failed BadTemplate
          else parse_template (Some (a :: acc)) s'
      end
  | None =>
      match s with
      | [] => Done []
      | a :: s' =>
          if decide (a = BACKSLASH) then
            match s' with
            | [] => Failed BadTemplate        (* bad escape (end of pattern) *)
            | c :: s1 =>
                if decide (c = "g"%char) then
                  match s1 with
                  | b :: s2 =>
                      if decide (b = "<"%char)
                      then parse_template (Some []) s2
                      else Failed BadTemplate (* missing < *)
                  | [] => Failed BadTemplate
                  end
                else if decide (c = "0"%char) then
                  match s1 with
                  | d1 :: s2 =>
                      if is_octdigit d1 then
                        match s2 with
                        | d2 :: s3 =>
                            if is_octdigit d2
                            then attempt_map
                                   (cons (TChar (ascii_of_nat (8 * digit d1 + digit d2))))
                                   (parse_template None s3)
                            else attempt_map (cons (TChar (ascii_of_nat (digit d1))))
                                   (parse_template None s2)
                        | [] => Done [TChar (ascii_of_nat (digit d1))]
                        end
                      else attempt_map (cons (TChar (ascii_of_nat 0)))
                             (parse_template None s1)
                  | [] => Done [TChar (ascii_of_nat 0)]
                  end
                else if is_digit c then
                  match s1 with
                  | d1 :: d2 :: s3 =>
                      if is_octdigit c && is_octdigit d1 && is_octdigit d2 then
                        let v := 64 * digit c + 8 * digit d1 + digit d2 in
                        if decide (v ≤ 255)
                        then attempt_map (cons (TChar (ascii_of_nat v)))
                               (parse_template None s3)
                        else Failed BadTemplate (* octal escape out of range *)
                      else Failed BadTemplate   (* invalid group reference *)
                  | _ => Failed BadTemplate     (* invalid group reference *)
                  end
                else
                  match escape_char c with
                  | Some e => attempt_map (cons (TChar e)) (parse_template None s1)
                  | None =>
                      if is_ascii_letter c then Failed BadTemplate   (* bad escape *)
                      else attempt_map (λ t, TChar a :: TChar c :: t)
                             (parse_template None s1)
                  end
            end
          else attempt_map (cons (TChar a)) (parse_template None s')
      end
  end.

Definition expand (tpl : list tpl_item) (m : str) : str :=
  concat ((λ i, match i with TChar a => [a] | TMatch => m end) <$> tpl).

(** [re.sub] with [count=0]: every non-overlapping match, scanning
    left to right, is replaced by the expanded template; the text
    between matches is copied. *)
Fixpoint sub_loop (fuel : nat) (r : regex) (tpl : list tpl_item)
    (sn ah : str) : str :=
  match fuel with
  | 0 => ah
  | S fuel' =>
      match match_here r sn ah with
      | Some c =>
          let out := expand tpl (matched sn c) in
          if decide (length (ahead c) < length ah)
          then out ++ sub_loop fuel' r tpl (seen c) (ahead c)
          else match ah with
               | [] => out
               | a :: ah' => out ++ a :: sub_loop fuel' r tpl (a :: sn) ah'
               end
      | None =>
          match ah with
          | [] => []
          | a :: ah' => a :: sub_loop fuel' r tpl (a :: sn) ah'
          end
      end
  end.

Definition sub (r : regex) (repl s : str) : attempt str :=
  attempt_map (λ tpl, sub_loop (S (length s)) r tpl [] s)
              (parse_template None repl).

End Re.

Import Re.

(** ** The vault and the effects of the program

    [open(p, 'r').read()] raises when [p] cannot be read;
    [open(p, 'w').write(c)] replaces the content of [p].  The trace
    lists the paths written, in order.  Progress messages printed by
    [main] are not modelled. *)

Inductive exn : Type :=
| FileNotFoundError (p : str)
| ReError                       (* [re.error], raised by [re.sub] for its template *)
| IndexError.                   (* raised by [re.sub] for an unknown group name *)

Inductive outcome (A : Type) : Type :=
| Ok (a : A)
| Raise (e : exn).
Arguments Ok {A} a.
Arguments Raise {A} e.

Record vault : Type := Vault {
  files : gmap str str;
  written : list str
}.

Definition io (A : Type) : Type := vault → outcome A * vault.

Definition ret {A} (a : A) : io A := λ v, (Ok a, v).

Definition bind {A B} (m : io A) (k : A → io B) : io B :=
  λ v, match m v with
       | (Ok a, v') => k a v'
       | (Raise e, v') => (Raise e, v')
       end.

Notation "x <- m ;; k" := (bind m (λ x, k))
  (at level 100, m at next level, right associativity).

Definition read_file (p : str) : io str :=
  λ v, match files v !! p with
       | Some c => (Ok c, v)
       | None => (Raise (FileNotFoundError p), v)
       end.

Definition write_file (p c : str) : io unit :=
  λ v, (Ok (), Vault (<[p := c]> (files v)) (written v ++ [p])).

Definition raise {A} (e : exn) : io A := λ v, (Raise e, v).

(** [for x in l: acc = body(x, acc)] *)
Fixpoint for_each {A S} (l : list A) (body : A → S → io S) (acc : S) : io S :=
  match l with
  | [] => ret acc
  | x :: l' => acc' <- body x acc ;; for_each l' body acc'
  end.

(** ** app.py *)

(** [os.path.join] (POSIX). *)
Definition path_join (a b : str) : str :=
  if Str.startswith b (txt "/") then b
  else if bool_decide (a = []) || Str.endswith a (txt "/") then a ++ b
  else a ++ txt "/" ++ b.

(** [walk] is what [os.walk(vault_path)] yields: each directory with the
    names of its files (the sub-directory names are not used). *)
Definition find_markdown_files (walk : list (str * list str)) : list str :=
  '(root, names) ← walk;
  file ← names;
  if Str.endswith file (txt ".md") then [path_join root file] else [].

(** [os.path.basename] (POSIX): what follows the last slash. *)
Definition basename (p : str) : str :=
  reverse (Str.before_char "/"%char (reverse p)).

(** [os.path.splitext(b)[0]] for a name without a slash: the name up to
    its last dot, unless only dots precede that dot. *)
Definition splitext_root (b : str) : str :=
  let ext := Str.before_char "."%char (reverse b) in
  if decide (length ext = length b) then b
  else
    let root := take (length b - S (length ext)) b in
    if forallb (λ a, bool_decide (a = "."%char)) root then b else root.

Definition extract_note_title (file_path : str) : str :=
  splitext_root (basename file_path).

(** [r'\[\[(.*?)(?:\|.*?)?\]\]'] *)
Definition wiki_link_pattern : regex :=
  Seq (Lit (txt "[["))
    (Seq (Group (LazyDots false))
      (Seq (Opt (Seq (Lit (txt "|")) (LazyDots false)))
        (Lit (txt "]]")))).

Definition parse_links (content file_path : str) : list str :=
  findall wiki_link_pattern content.

(** [r'(?<!\[\[)' + re.escape(title) + r'(?!\]\])'] *)
Definition text_reference_pattern (title : str) : regex :=
  Seq (NotBehind (txt "[[")) (Seq (Lit title) (NotAhead (txt "]]"))).

Definition find_text_references (content : str) (note_titles : list str)
    : list str :=
  foldl (λ references title,
           if decide (length title < 3) then references
           else match search (text_reference_pattern title) content with
                | Some _ => references ++ [title]
                | None => references
                end)
        [] note_titles.

(** [backlinks]: a [defaultdict(list)], which keeps its keys in the order
    of their first insertion.  An entry is [(source_title, file_path)]. *)
Abbreviation reference := (str * str)%type.
Abbreviation backlinks := (list (str * list reference)).

Fixpoint bl_append (target : str) (e : reference) (bl : backlinks)
    : backlinks :=
  match bl with
  | [] => [(target, [e])]
  | (t, es) :: bl' =>
      if decide (t = target) then (t, es ++ [e]) :: bl'
      else (t, es) :: bl_append target e bl'
  end.

Fixpoint bl_lookup (target : str) (bl : backlinks) : option (list reference) :=
  match bl with
  | [] => None
  | (t, es) :: bl' => if decide (t = target) then Some es else bl_lookup target bl'
  end.

(** [{extract_note_title(f): f for f in markdown_files}]: a later file
    with the same title replaces an earlier one. *)
Definition file_title_map (markdown_files : list str) : gmap str str :=
  foldl (λ m f, <[extract_note_title f := f]> m) ∅ markdown_files.

(** The body of [for ref in all_refs]. *)
Definition add_ref (ftm : gmap str str) (source : reference)
    (bl : backlinks) (ref : str) : backlinks :=
  match ftm !! ref with
  | Some target_file => bl_append target_file source bl
  | None => bl
  end.

(** [set(links + text_refs)] is iterated in an order Python leaves
    open; [set_iter] is the enumeration, which lists every member once.
    [generate_backlinks] fixes [remove_dups]; by
    [generate_backlinks_with_lookup] the references recorded for a note
    do not depend on the choice. *)
Definition generate_backlinks_with (set_iter : list str → list str)
    (markdown_files : list str) : io backlinks :=
  let note_titles := extract_note_title <$> markdown_files in
  let ftm := file_title_map markdown_files in
  for_each markdown_files
    (λ file_path bl,
       content <- read_file file_path ;;
       let source_title := extract_note_title file_path in
       let links := parse_links content file_path in
       let text_refs := find_text_references content note_titles in
       let all_refs := set_iter (links ++ text_refs) in
       ret (foldl (add_ref ftm (source_title, file_path)) bl all_refs))
    [].

Definition generate_backlinks : list str → io backlinks :=
  generate_backlinks_with remove_dups.

Inductive update_mode : Type := append | replace.

Definition HEADING : str := txt "## Backlinks" ++ [NL; NL].

(** [r'## Backlinks\n\n.*?(?:\n\n|$)'] with [re.DOTALL] *)
Definition backlink_section_pattern : regex :=
  Seq (Lit HEADING) (Seq (LazyDots true) (Alt (Lit [NL; NL]) Eos)).

Definition new_section (references : list reference) : str :=
  foldl (λ acc r, acc ++ txt "- [[" ++ r.1 ++ txt "]]" ++ [NL])
        HEADING references
  ++ [NL].

(** The end of content a section is appended to. *)
Definition separated (content : str) : str :=
  if Str.endswith content [NL; NL] then content
  else content ++ (if Str.endswith content [NL] then [NL] else [NL; NL]).

(** The body of the loop of [update_files_with_backlinks]. *)
Definition update_file (mode : update_mode) (item : str * list reference)
    : io unit :=
  let '(target_file, references) := item in
  match references with
  | [] => ret ()
  | _ :: _ =>
      content <- read_file target_file ;;
      let existing_section := search backlink_section_pattern content in
      let section := new_section references in
      match existing_section, mode with
      | Some _, replace =>
          match sub backlink_section_pattern section content with
          | Done content' => write_file target_file content'
          | Failed BadTemplate => raise ReError
          | Failed UnknownGroup => raise IndexError
          end
      | Some _, append => ret ()
      | None, _ => write_file target_file (separated content ++ section)
      end
  end.

Definition update_files_with_backlinks (bl : backlinks) (mode : update_mode)
    : io unit :=
  for_each bl (λ item _, update_file mode item) ().

(** The command line: [vault_path], [--mode], [--text-refs]. *)
Record args : Type := Args {
  vault_path : str;
  mode : update_mode;
  text_refs : bool
}.

Definition default_args (vault_path : str) : args :=
  Args vault_path append false.

Definition main (a : args) (walk : list (str * list str)) : io unit :=
  let markdown_files := find_markdown_files walk in
  bl <- generate_backlinks markdown_files ;;
  update_files_with_backlinks bl (mode a).

(** One run of the program on a vault. *)
Definition run_main (a : args) (walk : list (str * list str))
    (fs : gmap str str) : outcome unit * vault :=
  main a walk (Vault fs []).

(** ** Notions used to state the properties *)

(** What follows [.*?] in the section pattern: [(?:\n\n|$)]. *)
Definition section_end (c : cursor) : option cursor :=
  run (Alt (Lit [NL; NL]) Eos) c Some.

(** What follows the captured target in the link pattern:
    [(?:\|.*?)?\]\]]. *)
Definition link_end (c : cursor) : option cursor :=
  run (Seq (Opt (Seq (Lit (txt "|")) (LazyDots false))) (Lit (txt "]]"))) c Some.

(** A character that can stand in a link target: no newline, bar or
    closing bracket. *)
Definition plain_char (a : ascii) : Prop :=
  a ≠ NL ∧ a ≠ "|"%char ∧ a ≠ "]"%char.

(** A pattern that cannot match across a newline: [.] excludes the
    newline and no literal holds one. *)
Fixpoint line_bound (r : regex) : Prop :=
  match r with
  | Lit s => NL ∉ s
  | LazyDots dotall => dotall = false
  | Seq r1 r2 | Alt r1 r2 => line_bound r1 ∧ line_bound r2
  | Opt r1 | Group r1 => line_bound r1
  | Eos => False
  | NotBehind _ => True
  | NotAhead s => NL ∉ s
  end.

(** The cursor [c], seen from a subject in which a newline and [v]
    follow. *)
Definition extend (v : str) (c : cursor) : cursor :=
  Cursor (seen c) (ahead c ++ NL :: v) (group1 c).

(** A continuation that does not look past a newline. *)
Definition barrier (v : str) (K : cursor → option cursor) : Prop :=
  ∀ s t g, K (Cursor s (t ++ NL :: v) g) = extend v <$> K (Cursor s t g).

(** [re.findall] of the link pattern gives [links] on [t], wherever
    the scan of [t] starts. *)
Definition links_of (t : str) (links : list str) : Prop :=
  ∀ fuel sn, length t < fuel →
    findall_loop fuel wiki_link_pattern sn t = links.

(** The literal-text pattern for [title] finds a match in [s]. *)
Definition found (title s : str) : Prop :=
  is_Some (search (text_reference_pattern title) s).

(** A block body: no blank line starts in it, even when a newline
    follows it. *)
Definition block_body (body : str) : Prop :=
  Str.starts_within [NL; NL] body [NL] = false.

(** [replaced section t out]: [out] is [t] with every block replaced by
    [section].  A block starts at a heading marker that is not inside
    an earlier block, and runs through the next blank line, or else to
    the end of the text (not counting one final newline).  The text
    between blocks is kept. *)
Inductive replaced (section : str) : str → str → Prop :=
| replaced_none t :
    Str.occurs HEADING t = false →
    replaced section t t
| replaced_blank pre body rest out :
    Str.starts_within HEADING pre HEADING = false →
    block_body body →
    replaced section rest out →
    replaced section (pre ++ HEADING ++ body ++ [NL; NL] ++ rest)
                     (pre ++ section ++ out)
| replaced_end pre body tail :
    Str.starts_within HEADING pre HEADING = false →
    block_body body →
    at_eos tail = true →
    replaced section (pre ++ HEADING ++ body ++ tail)
                     (pre ++ section ++ tail).

(** What the claim about the first block describes: only the block
    [re.search] finds is replaced. *)
Definition replace_first_block (section content : str) : str :=
  match search backlink_section_pattern content with
  | Some (sn, c) => reverse sn ++ section ++ ahead c
  | None => content
  end.

(** [file_path] refers to [target]: the title of [target] is among the
    reference titles extracted from the content of [file_path]. *)
Definition refers_to (markdown_files : list str) (fs : gmap str str)
    (target file_path : str) : Prop :=
  match fs !! file_path with
  | Some content =>
      extract_note_title target ∈
        parse_links content file_path ++
        find_text_references content (extract_note_title <$> markdown_files)
  | None => False
  end.

Global Instance refers_to_dec markdown_files fs target file_path :
  Decision (refers_to markdown_files fs target file_path).
Proof. unfold refers_to. destruct (fs !! file_path); apply _. Defined.

(** [target] is the file the title map keeps for its title. *)
Definition registered (markdown_files : list str) (target : str) : Prop :=
  file_title_map markdown_files !! extract_note_title target = Some target.

Global Instance registered_dec markdown_files target :
  Decision (registered markdown_files target).
Proof. unfold registered. apply _. Defined.

(** The inbound references of [target], in the order the files are
    scanned. *)
Definition inbound (markdown_files : list str) (fs : gmap str str)
    (target : str) : list reference :=
  if decide (registered markdown_files target)
  then (λ f, (extract_note_title f, f)) <$>
         filter (refers_to markdown_files fs target) markdown_files
  else [].

(** Every markdown file can be read. *)
Definition readable (markdown_files : list str) (fs : gmap str str) : Prop :=
  Forall (λ f, is_Some (fs !! f)) markdown_files.

(** An enumeration of a set lists each member once. *)
Definition enumerates (set_iter : list str → list str) : Prop :=
  ∀ l, NoDup (set_iter l) ∧ ∀ x, x ∈ set_iter l ↔ x ∈ l.

(** One line of a rendered section. *)
Definition entry_line (source_title : str) : str :=
  txt "- [[" ++ source_title ++ txt "]]" ++ [NL].

(** What the loop body of [generate_backlinks] does to the index, for a
    file that can be read. *)
Definition scan_file (set_iter : list str → list str)
    (markdown_files : list str) (fs : gmap str str)
    (bl : backlinks) (file_path : str) : backlinks :=
  match fs !! file_path with
  | Some content =>
      foldl (add_ref (file_title_map markdown_files)
                     (extract_note_title file_path, file_path)) bl
        (set_iter (parse_links content file_path ++
                   find_text_references content
                     (extract_note_title <$> markdown_files)))
  | None => bl
  end.

(** What [update_files_with_backlinks] does with the content of one
    target: [Ok None] when it writes nothing, [Ok (Some c)] when it
    writes [c]. *)
Definition rewrite_content (mode : update_mode) (references : list reference)
    (content : str) : outcome (option str) :=
  match search backlink_section_pattern content, mode with
  | Some _, replace =>
      match sub backlink_section_pattern (new_section references) content with
      | Done content' => Ok (Some content')
      | Failed BadTemplate => Raise ReError
      | Failed UnknownGroup => Raise IndexError
      end
  | Some _, append => Ok None
  | None, _ => Ok (Some (separated content ++ new_section references))
  end.

(** A content without a section to which a section can be appended
    without completing a heading marker that the content leaves
    unfinished at its end. *)
Definition append_safe (content : str) : bool :=
  Str.occurs HEADING content ||
  negb (Str.starts_within HEADING (separated content) HEADING).

(** The note at [path], when there is one, is [append_safe]. *)
Definition appendable (fs : gmap str str) (path : str) : Prop :=
  match fs !! path with
  | Some content => append_safe content = true
  | None => True
  end.

Global Instance appendable_dec fs path : Decision (appendable fs path).
Proof. unfold appendable. destruct (fs !! path); apply _. Defined.

(** A title that can stand in a rendered line and in a replacement
    template as it is. *)
Definition plain_title (title : str) : Prop :=
  (NL ∉ title) ∧ (BACKSLASH ∉ title).

Global Instance plain_title_dec title : Decision (plain_title title).
Proof. unfold plain_title. apply _. Defined.

(** A note that holds no heading marker, and does not end in one that
    lacks its blank line. *)
Definition fresh (fs : gmap str str) (path : str) : Prop :=
  match fs !! path with
  | Some content =>
      Str.occurs HEADING content = false ∧
      Str.starts_within HEADING (separated content) HEADING = false
  | None => True
  end.

Global Instance fresh_dec fs path : Decision (fresh fs path).
Proof. unfold fresh. destruct (fs !! path); apply _. Defined.

Global Instance plain_char_dec a : Decision (plain_char a).
Proof. unfold plain_char. apply _. Defined.

(** A title that a rendered line gives back to [parse_links] as it is,
    and that [re.sub] takes literally. *)
Definition tidy_title (title : str) : Prop :=
  Forall plain_char title ∧ BACKSLASH ∉ title.

Global Instance tidy_title_dec title : Decision (tidy_title title).
Proof. unfold tidy_title. apply _. Defined.

(** No known title is found by the literal-text strategy in the heading
    of a section or in the line rendered for a known title. *)
Definition quiet_titles (titles : list str) : Prop :=
  find_text_references (txt "## Backlinks") titles = [] ∧
  Forall (λ t, find_text_references (txt "- [[" ++ t ++ txt "]]") titles = [])
         titles.

Global Instance quiet_titles_dec titles : Decision (quiet_titles titles).
Proof. unfold quiet_titles. apply _. Defined.

(** [fs'] is [fs] with, for every note [p] that [J] gives references,
    the section rendered from [J p] appended. *)
Definition sectioned (fs : gmap str str) (J : str → list reference)
    (fs' : gmap str str) : Prop :=
  ∀ p, fs' !! p =
       (λ c, match J p with
             | [] => c
             | _ :: _ => separated c ++ new_section (J p)
             end) <$> fs !! p.

(** [J] gives references whose sources are scanned notes. *)
Definition scanned_sources (markdown_files : list str)
    (J : str → list reference) : Prop :=
  ∀ p r, r ∈ J p →
    ∃ s, s ∈ markdown_files ∧ r = (extract_note_title s, s).

(** The references the index holds for [target], as
    [update_files_with_backlinks] receives them to render its section. *)
Definition section_references (markdown_files : list str) (fs : gmap str str)
    (target : str) : list reference :=
  match generate_backlinks markdown_files (Vault fs []) with
  | (Ok bl, _) => default [] (bl_lookup target bl)
  | (Raise _, _) => []
  end.

(** The number of lines of a section that link to [title]. *)
Definition entries_for (title : str) (references : list reference) : nat :=
  length (filter (λ r : reference, r.1 = title) references).

(** [n] runs of [main], one after the other, on a vault, each given
    the text that the run before it wrote.  That is the text the next
    run reads, unless a written title holds a carriage return:
    [reruns] below reads the text back in text mode. *)
Definition runs (a : args) (walk : list (str * list str)) (n : nat)
    (fs : gmap str str) : gmap str str :=
  Nat.iter n (λ fs, files (run_main a walk fs).2) fs.

Definition CR : ascii := "013"%char.

(** What [f.read()] returns for a file that holds [s]: the files are
    opened in text mode with universal newlines, so a carriage return,
    with the newline that follows it if there is one, is read as one
    newline.  (Written text is stored as it is: the line separator is
    the newline.) *)
Fixpoint universal_newlines (s : str) : str :=
  match s with
  | [] => []
  | a :: s' =>
      if decide (a = CR) then
        NL :: match s' with
              | b :: s'' =>
                  if decide (b = NL) then universal_newlines s''
                  else universal_newlines s'
              | [] => []
              end
      else a :: universal_newlines s'
  end.

(** Text as it is read: it holds no carriage return. *)
Definition as_read (fs : gmap str str) : Prop :=
  map_Forall (λ _ content, CR ∉ content) fs.

Global Instance as_read_dec fs : Decision (as_read fs).
Proof. unfold as_read. apply _. Defined.

(** [n] runs of the program, one after the other, on the text [fs]
    that the first run reads: each later run reads, in text mode, the
    files as the run before it left them. *)
Definition reruns (a : args) (walk : list (str * list str)) (n : nat)
    (fs : gmap str str) : gmap str str :=
  Nat.iter n (λ fs, universal_newlines <$> files (run_main a walk fs).2) fs.

(** The position between [pre] and [post] lies inside the brackets of
    a link: an opening [[[] stands in [pre] with no closing []]] after
    it, and a closing []]] stands in [post] with no opening [[[] before
    it. *)
Definition enclosed (pre post : str) : Prop :=
  (∃ a b, pre = a ++ txt "[[" ++ b ∧ Str.occurs (txt "]]") b = false) ∧
  (∃ c d, post = c ++ txt "]]" ++ d ∧ Str.occurs (txt "[[") c = false).

(** ** Vaults used as examples *)

Module Example.

(** Three notes; only [A] has a link. *)
Definition scenario_walk : list (str * list str) :=
  [(txt "vault", [txt "A.md"; txt "B.md"; txt "C.md"])].

Definition scenario : gmap str str :=
  <[txt "vault/A.md" := txt "see [[B]] and [[B]] again"]>
  (<[txt "vault/B.md" := txt "nothing here"]>
  (<[txt "vault/C.md" := txt "B is interesting"]> ∅)).

Definition B_with_backlink : str :=
  txt "nothing here" ++ [NL; NL] ++
  txt "## Backlinks" ++ [NL; NL] ++ txt "- [[A]]" ++ [NL; NL].

(** Two notes with longer titles and no link at all. *)
Definition plain_walk : list (str * list str) :=
  [(txt "notes", [txt "Alpha.md"; txt "Beta.md"])].

Definition plain_vault : gmap str str :=
  <[txt "notes/Alpha.md" := txt "nothing here"]>
  (<[txt "notes/Beta.md" := txt "Alpha is interesting"]> ∅).

Definition Alpha_with_backlink : str :=
  txt "nothing here" ++ [NL; NL] ++
  txt "## Backlinks" ++ [NL; NL] ++ txt "- [[Beta]]" ++ [NL; NL].

(** A note with two sections. *)
Definition two_sections : str :=
  txt "## Backlinks" ++ [NL; NL] ++ txt "- [[X]]" ++ [NL; NL] ++
  txt "between" ++ [NL; NL] ++
  txt "## Backlinks" ++ [NL; NL] ++ txt "- [[Y]]" ++ [NL; NL].

Definition one_reference : list reference := [(txt "A", txt "vault/A.md")].

Definition section_A : str :=
  txt "## Backlinks" ++ [NL; NL] ++ txt "- [[A]]" ++ [NL; NL].

Definition both_replaced : str :=
  section_A ++ txt "between" ++ [NL; NL] ++ section_A.

Definition first_replaced : str :=
  section_A ++ txt "between" ++ [NL; NL] ++
  txt "## Backlinks" ++ [NL; NL] ++ txt "- [[Y]]" ++ [NL; NL].

Definition T_vault : vault := Vault {[txt "vault/T.md" := two_sections]} [].



Definition replace_args : args := Args (txt "vault") replace false.


(** Two notes of the same title in two directories, and a note whose
    link follows an opening bracket. *)
Definition twin_walk : list (str * list str) :=
  [(txt "vault", [txt "T.md"; txt "Y.md"]);
   (txt "vault/a", [txt "X.md"]);
   (txt "vault/b", [txt "X.md"])].

Definition twin_vault : gmap str str :=
  <[txt "vault/T.md" := txt "target"]>
  (<[txt "vault/Y.md" := txt "[[[T]]"]>
  (<[txt "vault/a/X.md" := txt "[[T]]"]>
  (<[txt "vault/b/X.md" := txt "[[T]]"]> ∅))).

(** Two notes of the same title, which a third note links. *)
Definition shared_walk : list (str * list str) :=
  [(txt "v", [txt "Z.md"]); (txt "v/a", [txt "X.md"]); (txt "v/b", [txt "X.md"])].

Definition shared_vault : gmap str str :=
  <[txt "v/Z.md" := txt "[[X]]"]>
  (<[txt "v/a/X.md" := txt "first"]>
  (<[txt "v/b/X.md" := txt "second"]> ∅)).

(** The files of the scenario, of which [B.md] cannot be read. *)
Definition broken_vault : gmap str str :=
  <[txt "vault/A.md" := txt "see [[C]]"]>
  (<[txt "vault/C.md" := txt "text"]> ∅).

(** A note with a section, referred to by a note whose title holds a
    backslash. *)
Definition escape_vault : vault :=
  Vault {[txt "vault/T.md" := section_A]} [].

End Example.

(** * Properties *)

(** A closed decidable proposition, settled by evaluation. *)
Ltac by_compute := apply (bool_decide_unpack _); vm_compute; exact I.

(** ** Strings *)

Module StrFacts.
Import Str.

Lemma strip_prefix_Some p s r : strip_prefix p s = Some r ↔ s = p ++ r.
Proof.
  revert s; induction p as [|a p IH]; intros [|b s]; simpl;
    try (split; congruence).
  - case_decide as E; [subst b|].
    + rewrite IH. split; [by intros -> | by intros [= ->]].
    + split; [done | intros [= ? _]; congruence].
Qed.

Lemma strip_prefix_app p r : strip_prefix p (p ++ r) = Some r.
Proof. by apply strip_prefix_Some. Qed.

Lemma startswith_true s p : startswith s p = true ↔ ∃ r, s = p ++ r.
Proof.
  unfold startswith. destruct (strip_prefix p s) as [r|] eqn:E.
  - apply strip_prefix_Some in E. split; eauto.
  - split; [done | intros [r ->]]. by rewrite strip_prefix_app in E.
Qed.


Lemma startswith_take s p :
  startswith s p = startswith (take (length p) s) p.
Proof.
  unfold startswith. revert s; induction p as [|a p IH]; intros [|b s];
    simpl; try done.
  case_decide; [apply IH | done].
Qed.

Lemma endswith_true s p : endswith s p = true ↔ ∃ r, s = r ++ p.
Proof.
  unfold endswith. rewrite startswith_true. split.
  - intros [r E]. exists (reverse r).
    apply (inj reverse). by rewrite E, reverse_app, reverse_involutive.
  - intros [r ->]. exists (reverse r). by rewrite reverse_app.
Qed.

Lemma occurs_true p s : occurs p s = true ↔ ∃ pre post, s = pre ++ p ++ post.
Proof.
  induction s as [|a s IH]; simpl.
  - rewrite orb_false_r, startswith_true. split.
    + intros [r E]. by exists [], r.
    + intros (pre & post & E). symmetry in E.
      apply app_eq_nil in E as [-> E]. eauto.
  - rewrite orb_true_iff, startswith_true, IH. split.
    + intros [[r E]|(pre & post & E)].
      * by exists [], r.
      * exists (a :: pre), post. by rewrite E.
    + intros ([|b pre] & post & E); simpl in E.
      * left; eauto.
      * right. injection E as _ E. eauto.
Qed.

Lemma starts_within_false p pre t :
  starts_within p pre t = false ↔
  ∀ pre1 pre2, pre = pre1 ++ pre2 → pre2 ≠ [] → startswith (pre2 ++ t) p = false.
Proof.
  induction pre as [|a pre IH]; simpl.
  - split; [|done]. intros _ pre1 pre2 E.
    symmetry in E. apply app_eq_nil in E as [_ ->]. done.
  - rewrite orb_false_iff, IH. split.
    + intros [H1 H2] [|b pre1] pre2 E Hne; simpl in E.
      * by subst pre2.
      * injection E as _ E. eauto.
    + intros H. split.
      * by apply (H [] (a :: pre)).
      * intros pre1 pre2 E. apply (H (a :: pre1)). by rewrite E.
Qed.

Lemma starts_within_true p pre t :
  starts_within p pre t = true →
  ∃ pre1 pre2, pre = pre1 ++ pre2 ∧ pre2 ≠ [] ∧ startswith (pre2 ++ t) p = true.
Proof.
  induction pre as [|a pre IH]; [done|]. simpl.
  intros [H|H]%orb_true_iff.
  - by exists [], (a :: pre).
  - destruct (IH H) as (pre1 & pre2 & -> & Hne & Hs).
    by exists (a :: pre1), pre2.
Qed.

(** Whether [p] starts within [pre] depends on what follows only up
    to the length of [p]. *)
Lemma starts_within_ext p pre t t' :
  take (length p) t = take (length p) t' →
  starts_within p pre t = starts_within p pre t'.
Proof.
  intros E. induction pre as [|a pre IH]; simpl; [done|].
  f_equal; [|done].
  rewrite (startswith_take (a :: pre ++ t)), (startswith_take (a :: pre ++ t')).
  f_equal. change (take (length p) ((a :: pre) ++ t) = take (length p) ((a :: pre) ++ t')).
  rewrite !take_app. f_equal.
  destruct (decide (length p ≤ length (a :: pre))) as [Hle|Hgt].
  - replace (length p - length (a :: pre)) with 0 by lia. done.
  - transitivity (take (length p - length (a :: pre)) (take (length p) t)).
    + rewrite take_take. f_equal. lia.
    + rewrite E, take_take. f_equal. lia.
Qed.

(** The first occurrence. *)
Lemma occurs_first p s :
  occurs p s = true →
  ∃ pre post, s = pre ++ p ++ post ∧ starts_within p pre (p ++ post) = false.
Proof.
  induction s as [|a s IH]; simpl.
  - rewrite orb_false_r, startswith_true. intros [r E]. by exists [], r.
  - destruct (startswith (a :: s) p) eqn:E0; simpl.
    + intros _. apply startswith_true in E0 as [r E]. by exists [], r.
    + intros (pre & post & E & Hpre)%IH.
      exists (a :: pre), post. split; [by rewrite E|].
      simpl. rewrite Hpre, orb_false_r. by rewrite <- E.
Qed.

Lemma occurs_short p s : length s < length p → occurs p s = false.
Proof.
  intros H. destruct (occurs p s) eqn:E; [|done].
  apply occurs_true in E as (pre & post & ->).
  rewrite !length_app in H. lia.
Qed.

Lemma occurs_app_r p s t : occurs p t = true → occurs p (s ++ t) = true.
Proof.
  rewrite !occurs_true. intros (pre & post & ->).
  exists (s ++ pre), post. by rewrite <- app_assoc.
Qed.

Lemma elem_of_concat {A} (x : A) (ls : list (list A)) :
  x ∈ concat ls ↔ ∃ l, x ∈ l ∧ l ∈ ls.
Proof.
  induction ls as [|l ls IH]; simpl.
  - split; [by intros ?%elem_of_nil|by intros (? & _ & ?%elem_of_nil)].
  - rewrite elem_of_app, IH. split.
    + intros [?|(l' & ? & ?)]; [exists l; split; [done|by left]|].
      exists l'. split; [done|by right].
    + intros (l' & ? & [->|?]%elem_of_cons); [by left|right; eauto].
Qed.

End StrFacts.

(** ** The matcher on the patterns of app.py *)

Module ReFacts.
Import Str StrFacts.

Lemma search_from_None r sn ah :
  search_from r sn ah = None ↔
  ∀ pre post, ah = pre ++ post → match_here r (reverse pre ++ sn) post = None.
Proof.
  revert sn; induction ah as [|a ah IH]; intros sn; simpl.
  - destruct (match_here r sn []) eqn:E.
    + split; [done|]. intros H. specialize (H [] [] eq_refl). simpl in H. congruence.
    + split; [|done]. intros _ pre post Eq.
      symmetry in Eq. apply app_eq_nil in Eq as [-> ->]. done.
  - destruct (match_here r sn (a :: ah)) eqn:E.
    + split; [done|]. intros H. specialize (H [] (a :: ah) eq_refl). simpl in H. congruence.
    + rewrite IH. split.
      * intros H [|b pre] post Eq; simpl in Eq.
        -- by subst post.
        -- injection Eq as <- Eq. rewrite reverse_cons, <- app_assoc.
           by apply H.
      * intros H pre post Eq.
        specialize (H (a :: pre) post). rewrite reverse_cons, <- app_assoc in H.
        apply H. by rewrite Eq.
Qed.

Lemma search_from_Some r sn ah sn' c :
  search_from r sn ah = Some (sn', c) →
  ∃ pre post, ah = pre ++ post ∧ sn' = reverse pre ++ sn ∧
              match_here r sn' post = Some c.
Proof.
  revert sn; induction ah as [|a ah IH]; intros sn; simpl.
  - destruct (match_here r sn []) eqn:E; [|done].
    intros [= <- <-]. by exists [], [].
  - destruct (match_here r sn (a :: ah)) eqn:E.
    + intros [= <- <-]. by exists [], (a :: ah).
    + intros (pre & post & -> & -> & H)%IH.
      exists (a :: pre), post. by rewrite reverse_cons, <- app_assoc.
Qed.

Lemma search_is_Some r s :
  is_Some (search r s) ↔
  ∃ pre post, s = pre ++ post ∧ is_Some (match_here r (reverse pre) post).
Proof.
  unfold search. split.
  - intros [[sn' c] H]. apply search_from_Some in H as (pre & post & -> & -> & H).
    exists pre, post. rewrite app_nil_r in H. eauto.
  - intros (pre & post & -> & [c H]).
    destruct (search_from r [] (pre ++ post)) eqn:E; [done|].
    rewrite search_from_None in E. specialize (E pre post eq_refl).
    rewrite app_nil_r in E. congruence.
Qed.

(** *** The literal-text pattern *)

Lemma text_reference_match title sn ah :
  match_here (text_reference_pattern title) sn ah =
  if startswith sn (txt "[[") then None
  else match strip_prefix title ah with
       | Some post =>
           if startswith post (txt "]]") then None
           else Some (Cursor (reverse title ++ sn) post None)
       | None => None
       end.
Proof.
  unfold match_here, text_reference_pattern. simpl.
  change (reverse (txt "[[")) with (txt "[[").
  destruct (startswith sn (txt "[[")); [done|].
  destruct (strip_prefix title ah); done.
Qed.

(** [re.search] finds the title exactly when it occurs somewhere with
    no [[[] just before it and no []]] just after it. *)
Lemma text_reference_search title content :
  is_Some (search (text_reference_pattern title) content) ↔
  ∃ pre post, content = pre ++ title ++ post ∧
              endswith pre (txt "[[") = false ∧
              startswith post (txt "]]") = false.
Proof.
  rewrite search_is_Some. split.
  - intros (pre & rest & -> & [c H]). rewrite text_reference_match in H.
    destruct (startswith (reverse pre) (txt "[[")) eqn:E1; [done|].
    destruct (strip_prefix title rest) as [post|] eqn:E2; [|done].
    destruct (startswith post (txt "]]")) eqn:E3; [done|].
    apply strip_prefix_Some in E2 as ->. by exists pre, post.
  - intros (pre & post & -> & E1 & E3). exists pre, (title ++ post).
    split; [done|]. rewrite text_reference_match.
    unfold endswith in E1. change (reverse (txt "[[")) with (txt "[[") in E1.
    by rewrite E1, strip_prefix_app, E3.
Qed.

(** *** The section pattern *)


Lemma section_match sn ah :
  match_here backlink_section_pattern sn ah =
  match strip_prefix HEADING ah with
  | Some t => lazy_dots true section_end (reverse HEADING ++ sn) t None
  | None => None
  end.
Proof. done. Qed.

Lemma section_match_None sn ah :
  startswith ah HEADING = false →
  match_here backlink_section_pattern sn ah = None.
Proof.
  rewrite section_match. unfold startswith.
  by destruct (strip_prefix HEADING ah).
Qed.


Lemma block_body_cons a body :
  block_body (a :: body) → block_body body.
Proof. unfold block_body. simpl. by intros [_ ?]%orb_false_iff. Qed.

Lemma lazy_dots_cons {R} d (k : cursor → option R) sn a ah g :
  lazy_dots d k sn (a :: ah) g =
  match k (Cursor sn (a :: ah) g) with
  | Some r => Some r
  | None => if dot d a then lazy_dots d k (a :: sn) ah g else None
  end.
Proof. done. Qed.

Lemma lazy_dots_blank body rest sn g :
  block_body body →
  lazy_dots true section_end sn (body ++ [NL; NL] ++ rest) g =
  Some (Cursor ([NL; NL] ++ reverse body ++ sn) rest g).
Proof.
  revert sn; induction body as [|a body IH]; intros sn Hb.
  - simpl. unfold section_end. simpl.
    repeat (case_decide; [|done]). done.
  - pose proof (block_body_cons _ _ Hb) as Hb'.
    unfold block_body in Hb. simpl in Hb.
    apply orb_false_iff in Hb as [Hb _].
    rewrite <- app_comm_cons, lazy_dots_cons.
    assert (section_end (Cursor sn (a :: body ++ [NL; NL] ++ rest) g) = None) as ->.
    2: { simpl. rewrite IH by done. rewrite reverse_cons, <- !app_assoc. done. }
    { unfold section_end, startswith in *. simpl in *.
      destruct body as [|b body]; simpl in *.
      * case_decide; [done|]. done.
      * case_decide; [|done]. by case_decide. }
Qed.

Lemma lazy_dots_end body tail sn g :
  block_body body → at_eos tail = true →
  lazy_dots true section_end sn (body ++ tail) g =
  Some (Cursor (reverse body ++ sn) tail g).
Proof.
  revert sn; induction body as [|a body IH]; intros sn Hb Ht.
  - simpl. unfold section_end. destruct tail as [|t [|t' tail]]; simpl in *; try done.
    + rewrite Ht. by destruct (decide (NL = t)).
  - pose proof (block_body_cons _ _ Hb) as Hb'.
    unfold block_body in Hb. simpl in Hb.
    apply orb_false_iff in Hb as [Hb _].
    rewrite <- app_comm_cons, lazy_dots_cons.
    assert (section_end (Cursor sn (a :: body ++ tail) g) = None) as ->.
    2: { simpl. rewrite IH by done. rewrite reverse_cons, <- !app_assoc. done. }
    { unfold section_end, startswith in *. simpl in *.
      destruct body as [|b body]; simpl in *.
      * destruct tail as [|t [|t' tail]]; simpl in *; try done.
        -- case_decide; [done|]. by rewrite bool_decide_eq_false_2.
        -- case_decide; [|done]. subst a.
           apply bool_decide_eq_true in Ht. subst t. by case_decide.
      * case_decide; [|done]. case_decide; [done|].
        destruct (body ++ tail); done. }
Qed.

(** *** The link pattern *)

Lemma wiki_link_match sn ah :
  match_here wiki_link_pattern sn ah =
  match strip_prefix (txt "[[") ah with
  | Some t =>
      lazy_dots false
        (λ c', link_end
                 (Cursor (seen c') (ahead c')
                    (Some (reverse (take (length (seen c') - length (txt "[[" ++ sn))
                                      (seen c'))))))
        (txt "[[" ++ sn) t None
  | None => None
  end.
Proof. done. Qed.

Lemma lazy_dots_link target post sn g (K : cursor → option cursor) :
  Forall plain_char target →
  (∀ sn' t g', Forall plain_char t → t ≠ [] →
      K (Cursor sn' (t ++ txt "]]" ++ post) g') = None) →
  lazy_dots false K sn (target ++ txt "]]" ++ post) g =
  match K (Cursor (reverse target ++ sn) (txt "]]" ++ post) g) with
  | Some r => Some r
  | None => lazy_dots false K (reverse target ++ sn) (txt "]]" ++ post) g
  end.
Proof.
  intros Ht HK. revert sn. induction Ht as [|a t Ha Ht IH]; intros sn.
  - simpl. by destruct (K _).
  - rewrite <- app_comm_cons, lazy_dots_cons.
    pose proof (HK sn (a :: t) g) as HK'. rewrite <- app_comm_cons in HK'.
    rewrite HK' by (by constructor || done).
    unfold dot. destruct Ha as (Ha & _). rewrite bool_decide_eq_false_2 by done.
    simpl. rewrite IH. by rewrite reverse_cons, <- !app_assoc.
Qed.

Lemma link_end_plain sn a t g :
  plain_char a → link_end (Cursor sn (a :: t) g) = None.
Proof.
  intros (_ & H1 & H2). unfold link_end. simpl.
  rewrite !decide_False; [done|congruence..].
Qed.

Lemma link_end_close sn post g :
  link_end (Cursor sn (txt "]]" ++ post) g) =
  Some (Cursor (txt "]]" ++ sn) post g).
Proof. done. Qed.

Lemma wiki_link_here sn target post :
  Forall plain_char target →
  match_here wiki_link_pattern sn (txt "[[" ++ target ++ txt "]]" ++ post) =
  Some (Cursor (txt "]]" ++ reverse target ++ txt "[[" ++ sn) post (Some target)).
Proof.
  intros Ht. rewrite wiki_link_match, strip_prefix_app.
  rewrite lazy_dots_link; [|done|].
  - cbn [seen ahead]. rewrite link_end_close. do 3 f_equal.
    rewrite length_app, Nat.add_sub, take_app_length. apply reverse_involutive.
  - intros sn' t g' Ht' Hne. destruct Ht' as [|a t Ha _]; [done|].
    cbn [seen ahead]. rewrite <- app_comm_cons. by apply link_end_plain.
Qed.

Lemma wiki_link_not_here sn a ah :
  a ≠ "["%char → match_here wiki_link_pattern sn (a :: ah) = None.
Proof.
  intros Ha. rewrite wiki_link_match. simpl. by rewrite decide_False by congruence.
Qed.

(** A link whose target holds no newline, bar or closing bracket, and
    which no opening bracket precedes, is found by [parse_links]. *)
Lemma parse_links_finds pre target post file_path :
  "["%char ∉ pre → Forall plain_char target →
  target ∈ parse_links (pre ++ txt "[[" ++ target ++ txt "]]" ++ post) file_path.
Proof.
  intros Hpre Ht. unfold parse_links, findall.
  generalize (@nil ascii) as sn.
  assert (∀ fuel sn, length (pre ++ txt "[[" ++ target ++ txt "]]" ++ post) < fuel →
            target ∈ findall_loop fuel wiki_link_pattern sn
                       (pre ++ txt "[[" ++ target ++ txt "]]" ++ post)) as H.
  { induction pre as [|a pre IH]; intros fuel sn Hf.
    - destruct fuel as [|fuel]; [lia|]. cbn [findall_loop app].
      rewrite wiki_link_here by done. cbn [ahead group1 default].
      rewrite decide_True; [by left|]. rewrite !length_app. simpl. lia.
    - apply not_elem_of_cons in Hpre as [Ha Hpre].
      destruct fuel as [|fuel]; [simpl in Hf; lia|].
      rewrite <- app_comm_cons. cbn [findall_loop].
      rewrite wiki_link_not_here by done. apply IH; [done|]. simpl in Hf |- *. lia. }
  intros sn. apply H. lia.
Qed.

End ReFacts.

(** ** Substitution of the section pattern *)

Module SubFacts.
Import Str StrFacts ReFacts.

Lemma sub_loop_fuel r tpl f1 : ∀ f2 sn ah,
  length ah < f1 → length ah < f2 →
  sub_loop f1 r tpl sn ah = sub_loop f2 r tpl sn ah.
Proof.
  induction f1 as [|f1 IH]; intros [|f2] sn ah H1 H2; try lia.
  simpl. destruct (match_here r sn ah) as [c|].
  - case_decide.
    + f_equal. apply IH; lia.
    + destruct ah as [|a ah]; [done|]. simpl in *.
      do 2 f_equal. apply IH; lia.
  - destruct ah as [|a ah]; [done|]. simpl in *. f_equal. apply IH; lia.
Qed.

Lemma expand_literal s m : expand (TChar <$> s) m = s.
Proof.
  induction s as [|a s IH]; [done|].
  unfold expand in *. simpl. by f_equal.
Qed.

Lemma parse_template_literal s :
  BACKSLASH ∉ s → parse_template None s = Done (TChar <$> s).
Proof.
  induction s as [|a s IH]; [done|]. intros H.
  apply not_elem_of_cons in H as [Hne H]. simpl.
  case_decide; [congruence|]. by rewrite IH.
Qed.

Section Pattern.
Context (tpl : list tpl_item).

Local Abbreviation subst f := (sub_loop f backlink_section_pattern tpl).

Lemma sub_no_heading f : ∀ sn t,
  occurs HEADING t = false → subst f sn t = t.
Proof.
  induction f as [|f IH]; intros sn t H; [done|].
  simpl. destruct t as [|a t].
  - by rewrite section_match_None.
  - simpl in H. apply orb_false_iff in H as [H1 H2].
    rewrite section_match_None by done. by rewrite IH.
Qed.

Lemma sub_gap pre : ∀ f sn t,
  starts_within HEADING pre t = false →
  length (pre ++ t) < f →
  subst f sn (pre ++ t) = pre ++ subst (f - length pre) (reverse pre ++ sn) t.
Proof.
  induction pre as [|a pre IH]; intros f sn t H Hf.
  - simpl. by rewrite Nat.sub_0_r.
  - simpl in H. apply orb_false_iff in H as [H1 H2].
    destruct f as [|f]; [simpl in Hf; lia|].
    simpl. rewrite section_match_None by done.
    simpl in Hf. rewrite IH by (done || lia).
    by rewrite reverse_cons, <- app_assoc.
Qed.

Lemma sub_block_blank f sn body rest :
  block_body body →
  subst (S f) sn (HEADING ++ body ++ [NL; NL] ++ rest) =
  expand tpl (HEADING ++ body ++ [NL; NL]) ++
  subst f (reverse (HEADING ++ body ++ [NL; NL]) ++ sn) rest.
Proof.
  intros Hb. cbn [sub_loop].
  rewrite section_match, strip_prefix_app, lazy_dots_blank by done.
  cbn [ahead seen]. rewrite decide_True.
  2: { rewrite !length_app. simpl. lia. }
  assert ([NL; NL] ++ reverse body ++ reverse HEADING ++ sn
          = reverse (HEADING ++ body ++ [NL; NL]) ++ sn) as ->.
  { rewrite !reverse_app, <- !app_assoc. done. }
  f_equal. unfold matched. cbn [seen].
  rewrite length_app, Nat.add_sub, take_app_length. by rewrite reverse_involutive.
Qed.

Lemma sub_block_end f sn body tail :
  block_body body → at_eos tail = true →
  subst (S f) sn (HEADING ++ body ++ tail) =
  expand tpl (HEADING ++ body) ++ tail.
Proof.
  intros Hb Ht. cbn [sub_loop].
  rewrite section_match, strip_prefix_app, lazy_dots_end by done.
  cbn [ahead seen]. rewrite decide_True.
  2: { rewrite !length_app. simpl. lia. }
  assert (reverse body ++ reverse HEADING ++ sn
          = reverse (HEADING ++ body) ++ sn) as ->.
  { rewrite !reverse_app, <- !app_assoc. done. }
  f_equal.
  - unfold matched. cbn [seen].
    rewrite length_app, Nat.add_sub, take_app_length. by rewrite reverse_involutive.
  - apply sub_no_heading, occurs_short.
    destruct tail as [|? [|? ?]]; [simpl; lia..|done].
Qed.

End Pattern.

(** Following a heading marker, the text splits into a block body and
    what ends it. *)
Lemma block_split u :
  (∃ body rest, u = body ++ [NL; NL] ++ rest ∧ block_body body) ∨
  (∃ body tail, u = body ++ tail ∧ block_body body ∧ at_eos tail = true).
Proof.
  induction u as [|a u IH].
  - right. by exists [], [].
  - destruct (startswith (a :: u) [NL; NL]) eqn:E1.
    { apply startswith_true in E1 as [r E]. left. by exists [], r. }
    destruct (at_eos (a :: u)) eqn:E2.
    { right. by exists [], (a :: u). }
    assert (∀ v w, u = v ++ w → ((∃ r, w = [NL; NL] ++ r) ∨ at_eos w = true) →
                   block_body v → block_body (a :: v)) as Hext.
    { intros v w -> Hw Hv. unfold block_body in *. simpl. rewrite Hv, orb_false_r.
      unfold startswith in *.
      destruct v as [|b v];
        [destruct Hw as [[r ->]|Hw]; [|destruct w as [|c [|c' w]]] |];
        simpl in *; repeat case_decide; simplify_eq/=; done. }
    destruct IH as [(body & rest & E & Hb)|(body & tail & E & Hb & Ht)].
    + left. exists (a :: body), rest. split; [by rewrite E|].
      eapply Hext; eauto.
    + right. exists (a :: body), tail. split_and!; [by rewrite E| |done].
      eapply Hext; eauto.
Qed.

Lemma starts_within_heading pre t :
  starts_within HEADING pre (HEADING ++ t) = starts_within HEADING pre HEADING.
Proof.
  apply starts_within_ext.
  rewrite take_app_length, take_ge; done.
Qed.

(** [replaced] relates every text to some output, *)
Lemma replaced_total section t : ∃ out, replaced section t out.
Proof.
  remember (length t) as n eqn:Hn. revert t Hn.
  induction n as [n IH] using lt_wf_ind. intros t ->.
  destruct (occurs HEADING t) eqn:E.
  2: { exists t. by constructor. }
  apply occurs_first in E as (pre & post & -> & Hpre).
  rewrite starts_within_heading in Hpre.
  destruct (block_split post) as [(body & rest & -> & Hb)|(body & tail & -> & Hb & Ht)].
  - destruct (IH (length rest)) with (t := rest) as [out Hout];
      [rewrite !length_app; simpl; lia | done |].
    eexists. by apply replaced_blank.
  - eexists. by apply replaced_end.
Qed.

(** and [re.sub] computes that output when the template is literal. *)
Lemma replaced_sub section t out :
  replaced section t out →
  ∀ f sn, length t < f →
  sub_loop f backlink_section_pattern (TChar <$> section) sn t = out.
Proof.
  induction 1 as [t H|pre body rest out Hpre Hb _ IH|pre body tail Hpre Hb Ht];
    intros f sn Hf.
  - by apply sub_no_heading.
  - rewrite sub_gap by (by rewrite ?starts_within_heading). f_equal.
    rewrite !length_app in Hf. simpl in Hf.
    destruct (f - length pre) as [|f'] eqn:Ef; [lia|].
    rewrite sub_block_blank, expand_literal by done. f_equal.
    apply IH. lia.
  - rewrite sub_gap by (by rewrite ?starts_within_heading). f_equal.
    rewrite !length_app in Hf. simpl in Hf.
    destruct (f - length pre) as [|f'] eqn:Ef; [lia|].
    rewrite sub_block_end, expand_literal by done. done.
Qed.

(** so [replaced] determines its output. *)
Lemma replaced_unique section t out1 out2 :
  replaced section t out1 → replaced section t out2 → out1 = out2.
Proof.
  intros H1 H2.
  rewrite <- (replaced_sub _ _ _ H1 (S (length t)) []) by lia.
  by rewrite (replaced_sub _ _ _ H2) by lia.
Qed.

(** With a single block, only that block changes. *)
Lemma replaced_single section pre body rest :
  starts_within HEADING pre HEADING = false →
  block_body body →
  occurs HEADING rest = false →
  replaced section (pre ++ HEADING ++ body ++ [NL; NL] ++ rest)
                   (pre ++ section ++ rest).
Proof. intros Hpre Hb Hrest. apply replaced_blank; [done..|by constructor]. Qed.


Lemma replaced_last section pre body t :
  t = pre ++ HEADING ++ body ++ [NL; NL] →
  starts_within HEADING pre HEADING = false →
  block_body body →
  replaced section t (pre ++ section).
Proof.
  intros -> Hpre Hb.
  pose proof (replaced_blank section pre body [] [] Hpre Hb) as H.
  rewrite !app_nil_r in H. apply H. by constructor.
Qed.


End SubFacts.

(** ** Effects *)

Module IoFacts.

Lemma bind_Ok {A B} (m : io A) (k : A → io B) v a v' :
  m v = (Ok a, v') → (x <- m ;; k x) v = k a v'.
Proof. unfold bind. by intros ->. Qed.

Lemma bind_Raise {A B} (m : io A) (k : A → io B) v e v' :
  m v = (Raise e, v') → (x <- m ;; k x) v = (Raise e, v').
Proof. unfold bind. by intros ->. Qed.

Lemma read_file_Some p c v :
  files v !! p = Some c → read_file p v = (Ok c, v).
Proof. unfold read_file. by intros ->. Qed.

Lemma read_file_None p v :
  files v !! p = None → read_file p v = (Raise (FileNotFoundError p), v).
Proof. unfold read_file. by intros ->. Qed.

Lemma for_each_cons {A S} (x : A) l (body : A → S → io S) acc :
  for_each (x :: l) body acc = (acc' <- body x acc ;; for_each l body acc').
Proof. done. Qed.

End IoFacts.

(** ** The backlink index *)

Module IndexFacts.
Import IoFacts.

Lemma file_title_map_snoc l f :
  file_title_map (l ++ [f]) = <[extract_note_title f := f]> (file_title_map l).
Proof. unfold file_title_map. by rewrite foldl_app. Qed.

(** The title map sends a title only to a scanned file of that title. *)
Lemma file_title_map_lookup l r t :
  file_title_map l !! r = Some t → extract_note_title t = r ∧ t ∈ l.
Proof.
  induction l as [|f l IH] using rev_ind; [done|].
  rewrite file_title_map_snoc, lookup_insert.
  case_decide as E.
  - intros [= <-]. split; [done|]. apply elem_of_app. right. by left.
  - intros [? ?]%IH. split; [done|]. apply elem_of_app. by left.
Qed.

Lemma file_title_map_None l r :
  file_title_map l !! r = None ↔ ∀ f, f ∈ l → extract_note_title f ≠ r.
Proof.
  induction l as [|f l IH] using rev_ind.
  - split; [intros _ f Hf; by apply elem_of_nil in Hf|done].
  - rewrite file_title_map_snoc, lookup_insert. case_decide as E.
    + split; [done|]. intros H. destruct (H f); [|done].
      apply elem_of_app. right. by left.
    + rewrite IH. split.
      * intros H g [Hg|Hg%list_elem_of_singleton]%elem_of_app; [by apply H|by subst].
      * intros H g Hg. apply H, elem_of_app. by left.
Qed.

(** A file whose title no later file shares is registered. *)
Lemma registered_unique l t :
  t ∈ l → (∀ f, f ∈ l → extract_note_title f = extract_note_title t → f = t) →
  registered l t.
Proof.
  unfold registered. induction l as [|f l IH] using rev_ind.
  { by intros ?%elem_of_nil. }
  intros Ht Hu. rewrite file_title_map_snoc, lookup_insert.
  case_decide as E.
  - f_equal. apply Hu; [|done]. apply elem_of_app. right. by left.
  - apply elem_of_app in Ht as [Ht|Ht%list_elem_of_singleton]; [|by subst].
    apply IH; [done|]. intros g Hg. apply Hu, elem_of_app. by left.
Qed.

Lemma bl_lookup_append t t' e bl :
  bl_lookup t (bl_append t' e bl) =
  if decide (t' = t) then Some (default [] (bl_lookup t bl) ++ [e])
  else bl_lookup t bl.
Proof.
  induction bl as [|[k es] bl IH]; simpl.
  - case_decide; done.
  - destruct (decide (k = t')) as [->|Hk]; simpl.
    + case_decide; done.
    + rewrite IH. destruct (decide (k = t)) as [->|Hk'].
      * by rewrite decide_False by done.
      * done.
Qed.

Lemma bl_append_keys t e bl x :
  x ∈ (bl_append t e bl).*1 ↔ x = t ∨ x ∈ bl.*1.
Proof.
  induction bl as [|[k es] bl IH]; simpl.
  - rewrite list_elem_of_singleton, elem_of_nil. tauto.
  - case_decide as E; simpl.
    + subst k. rewrite !elem_of_cons. tauto.
    + rewrite !elem_of_cons, IH. tauto.
Qed.

Lemma bl_append_NoDup t e bl : NoDup bl.*1 → NoDup (bl_append t e bl).*1.
Proof.
  induction bl as [|[k es] bl IH]; simpl.
  - intros _. apply NoDup_singleton.
  - rewrite NoDup_cons. intros [Hk Hbl]. case_decide as E; simpl.
    + by apply NoDup_cons.
    + apply NoDup_cons. split; [|by apply IH].
      rewrite bl_append_keys. intros [->|?]; done.
Qed.

Lemma bl_append_nonempty t e bl :
  Forall (λ item, item.2 ≠ []) bl →
  Forall (λ item, item.2 ≠ []) (bl_append t e bl).
Proof.
  induction bl as [|[k es] bl IH]; simpl; intros H.
  - repeat constructor. done.
  - apply Forall_cons in H as [H1 H2]. case_decide; constructor; simpl; auto.
    by destruct es.
Qed.

Lemma bl_lookup_elem_of t es bl :
  (t, es) ∈ bl → is_Some (bl_lookup t bl).
Proof.
  induction bl as [|[k es'] bl IH]; simpl.
  - by intros ?%elem_of_nil.
  - case_decide; [done|]. intros [[= -> ->]|?]%elem_of_cons; [done|auto].
Qed.

Lemma bl_lookup_Some t es bl :
  bl_lookup t bl = Some es → (t, es) ∈ bl.
Proof.
  induction bl as [|[k es'] bl IH]; simpl; [done|].
  case_decide as E.
  - intros [= ->]. subst. by left.
  - intros ?. right. auto.
Qed.

Lemma bl_lookup_NoDup t es bl :
  NoDup bl.*1 → (t, es) ∈ bl → bl_lookup t bl = Some es.
Proof.
  induction bl as [|[k es'] bl IH]; simpl.
  - by intros _ ?%elem_of_nil.
  - rewrite NoDup_cons. intros [Hk Hbl] [[= -> ->]|Hin]%elem_of_cons.
    + by rewrite decide_True.
    + rewrite decide_False; [auto|]. intros ->. apply Hk.
      apply list_elem_of_fmap. by exists (t, es).
Qed.

Section Scan.
Context (set_iter : list str → list str) (Hset : enumerates set_iter).
Context (markdown_files : list str) (fs : gmap str str).

Local Abbreviation ftm := (file_title_map markdown_files).
Local Abbreviation titles := (extract_note_title <$> markdown_files).

Local Abbreviation scan := (scan_file set_iter markdown_files fs).

Lemma add_refs_lookup src t refs : ∀ bl,
  NoDup refs →
  bl_lookup t (foldl (add_ref ftm src) bl refs) =
  if decide (registered markdown_files t ∧ extract_note_title t ∈ refs)
  then Some (default [] (bl_lookup t bl) ++ [src])
  else bl_lookup t bl.
Proof.
  induction refs as [|r refs IH]; intros bl Hnd.
  - simpl. rewrite decide_False; [done|]. intros [_ ?%elem_of_nil]. done.
  - apply NoDup_cons in Hnd as [Hr Hnd]. simpl. rewrite IH by done.
    unfold add_ref. destruct (ftm !! r) as [t'|] eqn:E.
    + pose proof (file_title_map_lookup _ _ _ E) as [Ht' _].
      rewrite bl_lookup_append. destruct (decide (t' = t)) as [->|Hne].
      * rewrite decide_False.
        2: { intros [_ ?]. congruence. }
        rewrite decide_True; [done|]. split; [unfold registered; by rewrite Ht'|].
        rewrite Ht'. by left.
      * destruct (decide (registered markdown_files t ∧ extract_note_title t ∈ refs))
          as [[H1 H2]|Hn].
        -- rewrite decide_True; [done|]. split; [done|by right].
        -- rewrite decide_False; [done|]. intros [H1 [E'|H2]%elem_of_cons]; [|tauto].
           unfold registered in H1. rewrite E' in H1. congruence.
    + destruct (decide (registered markdown_files t ∧ extract_note_title t ∈ refs))
        as [[H1 H2]|Hn].
      * rewrite decide_True; [done|]. split; [done|by right].
      * rewrite decide_False; [done|]. intros [H1 [E'|H2]%elem_of_cons]; [|tauto].
        unfold registered in H1. rewrite E' in H1. congruence.
Qed.

Lemma scan_file_lookup bl f t :
  bl_lookup t (scan bl f) =
  if decide (registered markdown_files t ∧ refers_to markdown_files fs t f)
  then Some (default [] (bl_lookup t bl) ++ [(extract_note_title f, f)])
  else bl_lookup t bl.
Proof.
  unfold scan_file.
  destruct (decide (registered markdown_files t ∧ refers_to markdown_files fs t f))
    as [[H1 H2]|Hn]; unfold refers_to in *;
    destruct (fs !! f) as [content|]; try done.
  - destruct (Hset (parse_links content f ++ find_text_references content titles))
      as [Hnd Hin].
    rewrite add_refs_lookup, decide_True; [done| |done]. split; [done|]. by apply Hin.
  - destruct (Hset (parse_links content f ++ find_text_references content titles))
      as [Hnd Hin].
    rewrite add_refs_lookup, decide_False; [done| |done].
    intros [H1 H2]. apply Hn. split; [done|]. by apply Hin.
Qed.

Lemma scan_files_lookup l : ∀ bl t,
  bl_lookup t (foldl scan bl l) =
  match (if decide (registered markdown_files t)
         then (λ f, (extract_note_title f, f)) <$>
                filter (refers_to markdown_files fs t) l
         else []) with
  | [] => bl_lookup t bl
  | new => Some (default [] (bl_lookup t bl) ++ new)
  end.
Proof.
  induction l as [|f l IH]; intros bl t.
  - simpl. by case_decide.
  - simpl. rewrite IH, scan_file_lookup.
    destruct (decide (registered markdown_files t)) as [Hr|Hr].
    + rewrite filter_cons.
      destruct (decide (refers_to markdown_files fs t f)) as [Hf|Hf].
      * rewrite decide_True by done. rewrite fmap_cons.
        destruct (_ <$> filter _ l) as [|e es]; simpl; [done|].
        by rewrite <- app_assoc.
      * rewrite decide_False by tauto. done.
    + rewrite decide_False by tauto. done.
Qed.

(** The scan reads every file and leaves the vault as it was. *)
Lemma generate_backlinks_with_run l : ∀ bl v,
  files v = fs → (∀ f, f ∈ l → is_Some (fs !! f)) →
  for_each l
    (λ file_path bl,
       content <- read_file file_path ;;
       let source_title := extract_note_title file_path in
       let links := parse_links content file_path in
       let text_refs := find_text_references content titles in
       let all_refs := set_iter (links ++ text_refs) in
       ret (foldl (add_ref ftm (source_title, file_path)) bl all_refs))
    bl v
  = (Ok (foldl scan bl l), v).
Proof.
  induction l as [|f l IH]; intros bl v Hv Hl; [done|].
  destruct (Hl f) as [c Hc]; [by left|].
  rewrite for_each_cons.
  erewrite bind_Ok; cycle 1.
  { erewrite bind_Ok; [|apply read_file_Some; by rewrite Hv]. done. }
  rewrite IH; [|done|].
  - assert (scan bl f =
            foldl (add_ref ftm (extract_note_title f, f)) bl
              (set_iter (parse_links c f ++ find_text_references c titles)))
      as Hs by (unfold scan_file; by rewrite Hc).
    simpl. by rewrite Hs.
  - intros g Hg. apply Hl. by right.
Qed.

End Scan.

(** The index holds, for every note, its inbound references in scan
    order; whatever order the reference sets are iterated in. *)
Lemma generate_backlinks_with_lookup set_iter markdown_files v :
  enumerates set_iter → readable markdown_files (files v) →
  ∃ bl, generate_backlinks_with set_iter markdown_files v = (Ok bl, v) ∧
        ∀ t, bl_lookup t bl =
             match inbound markdown_files (files v) t with
             | [] => None
             | refs => Some refs
             end.
Proof.
  intros Hset Hr. eexists. split.
  - unfold generate_backlinks_with. apply generate_backlinks_with_run; [done..|].
    by apply Forall_forall.
  - intros t. rewrite scan_files_lookup by done. unfold inbound. simpl.
    by destruct (if decide _ then _ else _).
Qed.

Lemma enumerates_remove_dups : enumerates remove_dups.
Proof.
  intros l. split; [apply NoDup_remove_dups|]. intros x. apply elem_of_remove_dups.
Qed.

Lemma generate_backlinks_lookup markdown_files v :
  readable markdown_files (files v) →
  ∃ bl, generate_backlinks markdown_files v = (Ok bl, v) ∧
        ∀ t, bl_lookup t bl =
             match inbound markdown_files (files v) t with
             | [] => None
             | refs => Some refs
             end.
Proof. apply generate_backlinks_with_lookup, enumerates_remove_dups. Qed.

(** Whatever happens, the scan writes nothing. *)
Lemma generate_backlinks_vault set_iter markdown_files v :
  (generate_backlinks_with set_iter markdown_files v).2 = v.
Proof.
  unfold generate_backlinks_with.
  generalize (file_title_map markdown_files) as ftm.
  generalize (extract_note_title <$> markdown_files) as titles.
  generalize (@nil (str * list reference)) as bl.
  induction markdown_files as [|f l IH]; intros bl titles ftm; [done|].
  rewrite for_each_cons.
  destruct (files v !! f) as [c|] eqn:E.
  - erewrite bind_Ok; [apply IH|].
    erewrite bind_Ok; [|by apply read_file_Some]. done.
  - erewrite bind_Raise; [done|].
    erewrite bind_Raise; [done|]. by apply read_file_None.
Qed.

End IndexFacts.

(** ** Reference extraction and rendering *)

Module RenderFacts.
Import Str StrFacts ReFacts SubFacts.

Lemma find_text_references_acc content x : ∀ titles acc,
  x ∈ foldl (λ references title,
               if decide (length title < 3) then references
               else match search (text_reference_pattern title) content with
                    | Some _ => references ++ [title]
                    | None => references
                    end) acc titles ↔
  x ∈ acc ∨ (x ∈ titles ∧ 3 ≤ length x ∧
             is_Some (search (text_reference_pattern x) content)).
Proof.
  induction titles as [|t titles IH]; intros acc; simpl.
  - split; [by left|]. intros [?|[?%elem_of_nil _]]; done.
  - rewrite IH. clear IH. rewrite elem_of_cons.
    destruct (decide (length t < 3)) as [Hlen|Hlen];
      [|destruct (search (text_reference_pattern t) content) as [m|] eqn:E].
    + split; [tauto|].
      intros [?|([E'|?] & ? & ?)]; [tauto|subst; lia|tauto].
    + rewrite elem_of_app, list_elem_of_singleton. split.
      * intros [[?|E']|?]; [tauto| |tauto]. subst x.
        right. split_and!; [tauto|lia|]. rewrite E. eauto.
      * intros [?|([E'|?] & ? & ?)]; tauto.
    + split; [tauto|].
      intros [?|([E'|?] & ? & [m Hm])]; [tauto| |eauto 6].
      subst. congruence.
Qed.

(** The literal-text strategy reports exactly the known titles of
    length at least 3 that the pattern finds. *)
Lemma find_text_references_elem content titles x :
  x ∈ find_text_references content titles ↔
  x ∈ titles ∧ 3 ≤ length x ∧
  is_Some (search (text_reference_pattern x) content).
Proof.
  unfold find_text_references. rewrite find_text_references_acc.
  split; [intros [?%elem_of_nil|?]; done|by right].
Qed.

Lemma render_acc (refs : list reference) : ∀ acc,
  foldl (λ acc (r : reference), acc ++ txt "- [[" ++ r.1 ++ txt "]]" ++ [NL]) acc refs
  = acc ++ concat (entry_line <$> refs.*1).
Proof.
  induction refs as [|r refs IH]; intros acc.
  - by rewrite app_nil_r.
  - rewrite !fmap_cons. cbn [foldl concat]. rewrite IH.
    unfold entry_line. by rewrite <- !app_assoc.
Qed.

(** The rendered section: the heading, one line per reference in the
    order of the list, and a closing newline. *)
Lemma new_section_lines refs :
  new_section refs = HEADING ++ concat (entry_line <$> refs.*1) ++ [NL].
Proof. unfold new_section. by rewrite render_acc, <- app_assoc. Qed.

Lemma starts_within_app p x y t :
  starts_within p (x ++ y) t = starts_within p x (y ++ t) || starts_within p y t.
Proof.
  induction x as [|a x IH]; [done|].
  simpl. by rewrite IH, <- app_assoc, orb_assoc.
Qed.

Lemma starts_within_notin a p x t :
  a ∉ x → starts_within (a :: p) x t = false.
Proof.
  induction x as [|b x IH]; [done|]. intros [Hne Hx]%not_elem_of_cons.
  simpl. rewrite IH by done. unfold startswith. simpl.
  by rewrite decide_False.
Qed.

Lemma entry_text_without a title :
  a ∉ txt "- [[" → a ∉ txt "]]" → a ∉ title →
  a ∉ txt "- [[" ++ title ++ txt "]]".
Proof. intros H1 H2 H3. rewrite !elem_of_app. tauto. Qed.

Lemma entry_text_no_newline title :
  NL ∉ title → NL ∉ txt "- [[" ++ title ++ txt "]]".
Proof.
  apply entry_text_without; by_compute.
Qed.

Lemma entry_lines_block titles t :
  Forall (λ title, NL ∉ title) titles →
  starts_within [NL; NL] (concat (entry_line <$> titles)) ("-"%char :: t) = false.
Proof.
  induction 1 as [|title titles Ht _ IH]; [done|].
  rewrite fmap_cons. cbn [concat]. rewrite starts_within_app, IH, orb_false_r.
  unfold entry_line at 1.
  replace (txt "- [[" ++ title ++ txt "]]" ++ [NL])
    with ((txt "- [[" ++ title ++ txt "]]") ++ [NL]) by by rewrite <- !app_assoc.
  rewrite starts_within_app. apply orb_false_iff. split.
  - by apply starts_within_notin, entry_text_no_newline.
  - cbn [starts_within]. rewrite orb_false_r.
    destruct titles as [|title' titles]; done.
Qed.

(** With at least one reference and no newline in a title, the rendered
    section is a block: a heading, a body without a blank line, and the
    blank line that ends it. *)
Lemma new_section_block refs :
  refs ≠ [] → Forall (λ r : reference, NL ∉ r.1) refs →
  ∃ body, new_section refs = HEADING ++ body ++ [NL; NL] ∧ block_body body.
Proof.
  intros Hne Hrefs. destruct refs as [|r0 refs0 _] using rev_ind; [done|]. clear Hne.
  apply Forall_app in Hrefs as [Hrefs Hr]. rewrite Forall_singleton in Hr.
  exists (concat (entry_line <$> refs0.*1) ++ txt "- [[" ++ r0.1 ++ txt "]]").
  split.
  - rewrite new_section_lines, !fmap_app, concat_app. cbn [fmap list_fmap concat].
    unfold entry_line at 2. by rewrite <- !app_assoc.
  - unfold block_body. rewrite starts_within_app. apply orb_false_iff. split.
    + apply entry_lines_block. by apply Forall_fmap.
    + by apply starts_within_notin, entry_text_no_newline.
Qed.


Lemma new_section_plain refs :
  Forall (λ r : reference, BACKSLASH ∉ r.1) refs → BACKSLASH ∉ new_section refs.
Proof.
  intros H. rewrite new_section_lines, !elem_of_app.
  intros [Hin|[Hin|Hin]].
  - revert Hin. by_compute.
  - apply elem_of_concat in Hin as (line & Hin & Hline).
    apply list_elem_of_fmap in Hline as (title & -> & Htitle).
    apply list_elem_of_fmap in Htitle as (r & -> & Hr).
    rewrite Forall_forall in H. specialize (H r Hr).
    revert Hin. unfold entry_line.
    replace (txt "- [[" ++ r.1 ++ txt "]]" ++ [NL])
      with ((txt "- [[" ++ r.1 ++ txt "]]") ++ [NL]) by by rewrite <- !app_assoc.
    rewrite elem_of_app. intros [Hin|Hin%list_elem_of_singleton]; [|done].
    revert Hin. apply entry_text_without; [| |done];
      by_compute.
  - apply list_elem_of_singleton in Hin. done.
Qed.

End RenderFacts.

(** ** Rewriting the notes *)

Module UpdateFacts.
Import Str StrFacts ReFacts SubFacts IoFacts IndexFacts RenderFacts.

(** The pattern finds a section exactly when the heading marker occurs. *)
Lemma section_search content :
  is_Some (search backlink_section_pattern content) ↔
  occurs HEADING content = true.
Proof.
  rewrite search_is_Some, occurs_true. split.
  - intros (pre & post & -> & [c H]). rewrite section_match in H.
    destruct (strip_prefix HEADING post) as [t|] eqn:E; [|done].
    apply strip_prefix_Some in E as ->. eauto.
  - intros (pre & post & ->). exists pre, (HEADING ++ post). split; [done|].
    rewrite section_match, strip_prefix_app.
    destruct (block_split post) as [(body & rest & -> & Hb)|(body & tail & -> & Hb & Ht)].
    + by rewrite lazy_dots_blank.
    + by rewrite lazy_dots_end.
Qed.

Lemma section_search_None content :
  search backlink_section_pattern content = None ↔
  occurs HEADING content = false.
Proof.
  rewrite <- not_true_iff_false, <- section_search, <- eq_None_not_Some. done.
Qed.

Lemma update_file_spec mode t refs v :
  update_file mode (t, refs) v =
  match refs with
  | [] => (Ok (), v)
  | _ :: _ =>
      match files v !! t with
      | None => (Raise (FileNotFoundError t), v)
      | Some c =>
          match rewrite_content mode refs c with
          | Ok None => (Ok (), v)
          | Ok (Some c') =>
              (Ok (), Vault (<[t := c']> (files v)) (written v ++ [t]))
          | Raise e => (Raise e, v)
          end
      end
  end.
Proof.
  unfold update_file. destruct refs as [|r refs]; [done|].
  destruct (files v !! t) as [c|] eqn:E.
  - erewrite bind_Ok; [|by apply read_file_Some].
    unfold rewrite_content.
    destruct (search backlink_section_pattern c), mode; try done.
    by destruct (sub _ _ _) as [?|[]].
  - erewrite bind_Raise; [done|by apply read_file_None].
Qed.

(** A step writes at most its own target. *)
Lemma update_file_other mode t refs v p :
  t ≠ p →
  files (update_file mode (t, refs) v).2 !! p = files v !! p ∧
  (p ∈ written (update_file mode (t, refs) v).2 → p ∈ written v).
Proof.
  intros Hne. rewrite update_file_spec. destruct refs as [|r refs]; [done|].
  destruct (files v !! t) as [c|]; [|done].
  destruct (rewrite_content mode (r :: refs) c) as [[c'|]|e]; try done.
  simpl. rewrite lookup_insert_ne by done. split; [done|].
  rewrite elem_of_app, list_elem_of_singleton. intros [?|?]; [done|congruence].
Qed.

Lemma update_files_cons mode item bl v :
  update_files_with_backlinks (item :: bl) mode v =
  match update_file mode item v with
  | (Ok _, v') => update_files_with_backlinks bl mode v'
  | (Raise e, v') => (Raise e, v')
  end.
Proof.
  unfold update_files_with_backlinks. rewrite for_each_cons. unfold bind.
  by destruct (update_file mode item v) as [[[]|e] v'].
Qed.

(** A note stays as it is when every step for it does nothing. *)
Lemma update_files_untouched mode p bl : ∀ v,
  (∀ refs v', (p, refs) ∈ bl → files v' !! p = files v !! p →
              update_file mode (p, refs) v' = (Ok (), v')) →
  files (update_files_with_backlinks bl mode v).2 !! p = files v !! p ∧
  (p ∈ written (update_files_with_backlinks bl mode v).2 → p ∈ written v).
Proof.
  induction bl as [|[t refs] bl IH]; intros v H; [done|].
  rewrite update_files_cons.
  assert (files (update_file mode (t, refs) v).2 !! p = files v !! p ∧
          (p ∈ written (update_file mode (t, refs) v).2 → p ∈ written v)) as [H1 H2].
  { destruct (decide (t = p)) as [->|Hne]; [|by apply update_file_other].
    rewrite H; [done|by left|done]. }
  destruct (update_file mode (t, refs) v) as [[[]|e] v']; simpl in *; [|done].
  destruct (IH v') as [H3 H4].
  - intros refs' v'' Hin Hv''. apply H; [by right|congruence].
  - split; [congruence|tauto].
Qed.

(** In append mode a note that has a section is left alone. *)
Lemma update_file_append_section t refs v c :
  files v !! t = Some c → occurs HEADING c = true →
  update_file append (t, refs) v = (Ok (), v).
Proof.
  intros Hc Hs. rewrite update_file_spec, Hc. unfold rewrite_content.
  apply section_search in Hs as [m ->]. by destruct refs.
Qed.

(** In append mode nothing raises once the targets can be read. *)
Lemma update_files_append_ok bl : ∀ v,
  Forall (λ item, is_Some (files v !! item.1)) bl →
  (update_files_with_backlinks bl append v).1 = Ok ().
Proof.
  induction bl as [|[t refs] bl IH]; intros v H; [done|].
  apply Forall_cons in H as [[c Hc] H]. simpl in Hc.
  rewrite update_files_cons, update_file_spec, Hc.
  destruct refs as [|r refs]; [by apply IH|].
  unfold rewrite_content.
  destruct (search backlink_section_pattern c); [by apply IH|].
  apply IH. simpl. eapply Forall_impl; [done|]. intros item [c' Hc'].
  rewrite lookup_insert. case_decide; eauto.
Qed.

(** In replace mode, a content with a section is rewritten to the text
    in which every block is replaced. *)
Lemma rewrite_content_replace refs content :
  occurs HEADING content = true →
  BACKSLASH ∉ new_section refs →
  ∃ out, replaced (new_section refs) content out ∧
         rewrite_content replace refs content = Ok (Some out).
Proof.
  intros Hs Hb. destruct (replaced_total (new_section refs) content) as [out Hout].
  exists out. split; [done|]. unfold rewrite_content.
  apply section_search in Hs as [m ->].
  unfold sub. rewrite parse_template_literal by done. cbn [attempt_map].
  by rewrite (replaced_sub _ _ _ Hout) by lia.
Qed.



(** The heading marker does not overlap itself. *)
Lemma heading_no_border p :
  p ≠ [] → startswith (p ++ HEADING) HEADING = true → ∃ r, p = HEADING ++ r.
Proof.
  intros Hne [r0 E]%startswith_true. unfold HEADING, txt in *. simpl in *.
  do 14 (destruct p as [|? p]; [simplify_eq/=|]).
  simplify_eq/=. by exists p.
Qed.

(** A content is [append_safe] unless it has no section and ends in a
    heading marker that lacks its blank line. *)
Lemma open_heading content :
  append_safe content = false →
  endswith content (txt "## Backlinks") = true ∨
  endswith content (txt "## Backlinks" ++ [NL]) = true.
Proof.
  unfold append_safe. intros [Hs Hw]%orb_false_iff.
  apply negb_false_iff, starts_within_true in Hw as (p1 & p2 & E & Hne & Hw).
  apply heading_no_border in Hw as [r ->]; [|done].
  assert (∀ x, content ≠ p1 ++ HEADING ++ x) as Hno.
  { intros x ->. rewrite (proj2 (occurs_true _ _)) in Hs; [done|eauto]. }
  unfold separated in E.
  destruct (endswith content [NL; NL]) eqn:E2; [by destruct (Hno r)|].
  destruct (endswith content [NL]) eqn:E1.
  - destruct r as [|x r _] using rev_ind.
    + right. apply endswith_true. exists p1.
      assert (p1 ++ HEADING ++ [] = (p1 ++ txt "## Backlinks" ++ [NL]) ++ [NL]) as E'
        by (unfold HEADING; by rewrite app_nil_r, <- !app_assoc).
      rewrite E' in E. by apply app_inj_tail in E as [-> _].
    + assert (p1 ++ HEADING ++ r ++ [x] = (p1 ++ HEADING ++ r) ++ [x]) as E'
        by (by rewrite <- !app_assoc).
      rewrite E' in E. apply app_inj_tail in E as [-> _]. by destruct (Hno r).
  - destruct r as [|x r _] using rev_ind.
    + left. apply endswith_true. exists p1.
      assert (p1 ++ HEADING ++ [] = (p1 ++ txt "## Backlinks") ++ [NL; NL]) as E'
        by (unfold HEADING; by rewrite app_nil_r, <- !app_assoc).
      rewrite E' in E. by apply app_inv_tail in E.
    + assert (content ++ [NL; NL] = (content ++ [NL]) ++ [NL]) as E0
        by (by rewrite <- app_assoc).
      assert (p1 ++ HEADING ++ r ++ [x] = (p1 ++ HEADING ++ r) ++ [x]) as E'
        by (by rewrite <- !app_assoc).
      rewrite E0, E' in E. apply app_inj_tail in E as [E _].
      destruct r as [|y r _] using rev_ind.
      * right. apply endswith_true. exists p1.
        assert (p1 ++ HEADING ++ [] = (p1 ++ txt "## Backlinks" ++ [NL]) ++ [NL]) as E''
          by (unfold HEADING; by rewrite app_nil_r, <- !app_assoc).
        rewrite E'' in E. by apply app_inj_tail in E as [-> _].
      * assert (p1 ++ HEADING ++ r ++ [y] = (p1 ++ HEADING ++ r) ++ [y]) as E''
          by (by rewrite <- !app_assoc).
        rewrite E'' in E. apply app_inj_tail in E as [-> _]. by destruct (Hno r).
Qed.

End UpdateFacts.

(** ** The two passes together *)

Module PipelineFacts.
Import Str StrFacts ReFacts SubFacts IoFacts IndexFacts RenderFacts UpdateFacts.

Lemma add_ref_NoDup ftm src bl r :
  NoDup bl.*1 → NoDup (add_ref ftm src bl r).*1.
Proof.
  unfold add_ref. destruct (ftm !! r); [apply bl_append_NoDup|done].
Qed.

Lemma scan_file_NoDup set_iter l fs bl f :
  NoDup bl.*1 → NoDup (scan_file set_iter l fs bl f).*1.
Proof.
  unfold scan_file. destruct (fs !! f) as [c|]; [|done].
  generalize (set_iter (parse_links c f ++
                find_text_references c (extract_note_title <$> l))) as refs.
  intros refs. revert bl. induction refs as [|r refs IH]; intros bl H; [done|].
  simpl. by apply IH, add_ref_NoDup.
Qed.

Lemma scan_files_NoDup set_iter l fs l' : ∀ bl,
  NoDup bl.*1 → NoDup (foldl (scan_file set_iter l fs) bl l').*1.
Proof.
  induction l' as [|f l' IH]; intros bl H; [done|].
  simpl. by apply IH, scan_file_NoDup.
Qed.

(** The index of a vault whose files can all be read: its keys are
    distinct, and each key holds its inbound references. *)
Lemma generate_backlinks_index markdown_files v :
  readable markdown_files (files v) →
  ∃ bl, generate_backlinks markdown_files v = (Ok bl, v) ∧
        NoDup bl.*1 ∧
        ∀ t refs, (t, refs) ∈ bl ↔
                  refs ≠ [] ∧ inbound markdown_files (files v) t = refs.
Proof.
  intros Hr.
  destruct (generate_backlinks_lookup markdown_files v Hr) as (bl & Hbl & Hlook).
  exists bl. split; [done|].
  assert (NoDup bl.*1) as Hnd.
  { unfold generate_backlinks, generate_backlinks_with in Hbl.
    rewrite (generate_backlinks_with_run _ _ (files v)) in Hbl.
    - injection Hbl as <-. apply scan_files_NoDup. constructor.
    - done.
    - by apply Forall_forall. }
  split; [done|]. intros t refs. split.
  - intros Hin. apply bl_lookup_NoDup in Hin; [|done].
    rewrite Hlook in Hin. by destruct (inbound _ _ t); simplify_eq.
  - intros [Hne <-]. apply bl_lookup_Some. rewrite Hlook.
    by destruct (inbound _ _ t).
Qed.

(** A scan that returns has read every file. *)
Lemma generate_backlinks_readable set_iter markdown_files v bl v' :
  generate_backlinks_with set_iter markdown_files v = (Ok bl, v') →
  readable markdown_files (files v).
Proof.
  unfold generate_backlinks_with, readable.
  generalize (file_title_map markdown_files) as ftm.
  generalize (extract_note_title <$> markdown_files) as titles.
  generalize (@nil (str * list reference)) as bl0.
  induction markdown_files as [|f l IH]; intros bl0 titles ftm H; [constructor|].
  rewrite for_each_cons in H.
  destruct (files v !! f) as [c|] eqn:E.
  - erewrite bind_Ok in H.
    2: { erewrite bind_Ok; [|by apply read_file_Some]. done. }
    constructor; [by rewrite E|]. by eapply IH.
  - erewrite bind_Raise in H; [done|].
    erewrite bind_Raise; [done|]. by apply read_file_None.
Qed.


(** A pass over notes that are already what it would write changes no
    content. *)
Lemma update_files_fixed bl : ∀ v,
  (∀ t refs, (t, refs) ∈ bl → refs ≠ [] →
     ∃ c, files v !! t = Some c ∧ rewrite_content replace refs c = Ok (Some c)) →
  ∃ w, update_files_with_backlinks bl replace v = (Ok (), Vault (files v) w).
Proof.
  induction bl as [|[t refs] bl IH]; intros v H.
  { exists (written v). by destruct v. }
  rewrite update_files_cons, update_file_spec.
  destruct refs as [|r refs].
  { apply IH. intros t' refs' Hin. apply H. by right. }
  destruct (H t (r :: refs)) as (c & Hc & Hrw); [by left|done|].
  rewrite Hc, Hrw.
  destruct (IH (Vault (<[t:=c]> (files v)) (written v ++ [t]))) as [w Hw].
  - simpl. rewrite insert_id by done. intros t' refs' Hin. apply H. by right.
  - exists w. rewrite Hw. simpl. by rewrite insert_id.
Qed.

(** A pass removes no note. *)
Lemma update_files_is_Some mode p bl : ∀ v,
  is_Some (files v !! p) →
  is_Some (files (update_files_with_backlinks bl mode v).2 !! p).
Proof.
  induction bl as [|[t refs] bl IH]; intros v H; [done|].
  rewrite update_files_cons, update_file_spec.
  destruct refs as [|r refs]; [by apply IH|].
  destruct (files v !! t) as [c|]; [|done].
  destruct (rewrite_content mode (r :: refs) c) as [[c'|]|e]; [|by apply IH|done].
  apply IH. simpl. rewrite lookup_insert. by case_decide.
Qed.

(** Replace mode always writes. *)
Lemma rewrite_content_replace_writes refs c :
  rewrite_content replace refs c ≠ Ok None.
Proof.
  unfold rewrite_content. destruct (search backlink_section_pattern c); [|done].
  by destruct (sub _ _ _) as [?|[]].
Qed.

(** A note with inbound references is a scanned note, and the titles
    listed for it are titles of scanned notes. *)
Lemma inbound_scanned markdown_files fs t :
  inbound markdown_files fs t ≠ [] → t ∈ markdown_files.
Proof.
  unfold inbound. destruct (decide (registered markdown_files t)) as [Hreg|]; [|done].
  intros _. by apply file_title_map_lookup in Hreg as [_ ?].
Qed.

Lemma inbound_titles (P : str → Prop) markdown_files fs t :
  Forall (λ f, P (extract_note_title f)) markdown_files →
  Forall (λ r : reference, P r.1) (inbound markdown_files fs t).
Proof.
  intros H. unfold inbound. case_decide; [|constructor].
  apply Forall_fmap. apply Forall_forall. intros f [_ Hf]%list_elem_of_filter.
  rewrite Forall_forall in H. by apply H.
Qed.

End PipelineFacts.

(** ** Matching line by line *)

Module LineFacts.
Import Str StrFacts ReFacts.

Lemma strip_prefix_line s t v :
  NL ∉ s →
  strip_prefix s (t ++ NL :: v) = (λ r, r ++ NL :: v) <$> strip_prefix s t.
Proof.
  revert t. induction s as [|a s IH]; intros t Hs; [done|].
  apply not_elem_of_cons in Hs as [Ha Hs].
  destruct t as [|b t]; simpl.
  - by rewrite decide_False by congruence.
  - case_decide; [by apply IH|done].
Qed.

Lemma lazy_dots_line v K sn t g :
  barrier v K →
  lazy_dots false K sn (t ++ NL :: v) g = extend v <$> lazy_dots false K sn t g.
Proof.
  intros HK. revert sn. induction t as [|a t IH]; intros sn.
  - pose proof (HK sn [] g) as H0. simpl in H0 |- *. rewrite H0.
    by destruct (K (Cursor sn [] g)).
  - rewrite <- app_comm_cons, !lazy_dots_cons.
    pose proof (HK sn (a :: t) g) as HK'. rewrite <- app_comm_cons in HK'.
    rewrite HK'. destruct (K (Cursor sn (a :: t) g)); [done|].
    cbn [fmap option_fmap option_map].
    destruct (dot false a); [apply IH|done].
Qed.

(** A line-bound pattern matches at a position of a line as it does
    when the line stands alone. *)
Lemma run_line v r :
  line_bound r → ∀ K, barrier v K → barrier v (λ c, run r c K).
Proof.
  induction r as [s|d|r1 IH1 r2 IH2|r1 IH1 r2 IH2|r1 IH1| |s|s|r1 IH1];
    intros Hr K HK sn t g; simpl in *.
  - rewrite strip_prefix_line by done.
    destruct (strip_prefix s t) as [t'|]; [apply HK|done].
  - subst d. by apply lazy_dots_line.
  - destruct Hr as [Hr1 Hr2].
    apply (IH1 Hr1 (λ c', run r2 c' K)). by apply IH2.
  - destruct Hr as [Hr1 Hr2].
    rewrite (IH1 Hr1 K HK sn t g), (IH2 Hr2 K HK sn t g).
    by destruct (run r1 _ K).
  - rewrite (IH1 Hr K HK sn t g), (HK sn t g).
    by destruct (run r1 _ K).
  - done.
  - destruct (startswith sn (reverse s)); [done|apply HK].
  - unfold startswith. rewrite strip_prefix_line by done.
    destruct (strip_prefix s t); [done|apply HK].
  - apply (IH1 Hr (λ c', K (Cursor (seen c') (ahead c')
                       (Some (reverse (take (length (seen c') - length sn) (seen c'))))))).
    intros s' t' g'. apply HK.
Qed.

Lemma match_here_line r sn t v :
  line_bound r →
  match_here r sn (t ++ NL :: v) = extend v <$> match_here r sn t.
Proof.
  intros Hr. apply (run_line v r Hr Some). by intros s t' g.
Qed.

Lemma findall_loop_fuel r f1 : ∀ f2 sn ah,
  length ah < f1 → length ah < f2 →
  findall_loop f1 r sn ah = findall_loop f2 r sn ah.
Proof.
  induction f1 as [|f1 IH]; intros [|f2] sn ah H1 H2; try lia.
  simpl. destruct (match_here r sn ah) as [c|].
  - case_decide.
    + f_equal. apply IH; lia.
    + destruct ah as [|a ah]; [done|]. simpl in *. f_equal. apply IH; lia.
  - destruct ah as [|a ah]; [done|]. simpl in *. apply IH; lia.
Qed.

(** The matches of a line-bound pattern in a text are those in its
    first line followed by those in the rest. *)
Lemma findall_line r fuel : ∀ sn u v,
  line_bound r → length (u ++ NL :: v) < fuel →
  ∃ sn', findall_loop fuel r sn (u ++ NL :: v) =
         findall_loop fuel r sn u ++ findall_loop fuel r sn' v.
Proof.
  induction fuel as [|fuel IH]; intros sn u v Hr Hf; [lia|].
  cbn [findall_loop]. rewrite match_here_line by done.
  assert (∀ sn1 u1, length (u1 ++ NL :: v) < fuel →
            ∃ sn', findall_loop fuel r sn1 (u1 ++ NL :: v) =
                   findall_loop fuel r sn1 u1 ++ findall_loop (S fuel) r sn' v) as Hrec.
  { intros sn1 u1 H1. destruct (IH sn1 u1 v Hr H1) as [sn' E].
    exists sn'. rewrite E. f_equal. apply findall_loop_fuel;
      rewrite !length_app in *; simpl in *; lia. }
  assert (∀ sn1, ∃ sn', findall_loop fuel r sn1 v = findall_loop (S fuel) r sn' v) as Hv.
  { intros sn1. exists sn1. apply findall_loop_fuel;
      rewrite !length_app in *; simpl in *; lia. }
  destruct (match_here r sn u) as [c|] eqn:Em; cbn [fmap option_fmap option_map extend ahead seen group1].
  - rewrite !length_app. cbn [length].
    destruct (decide (length (ahead c) < length u)) as [Hlt|Hge].
    + rewrite decide_True by lia.
      destruct (Hrec (seen c) (ahead c)) as [sn' E].
      { rewrite !length_app in *. simpl in *. lia. }
      exists sn'. by rewrite E.
    + rewrite decide_False by lia. destruct u as [|a u]; cbn [app].
      * destruct (Hv (NL :: sn)) as [sn' E]. exists sn'. by rewrite E.
      * destruct (Hrec (a :: sn) u) as [sn' E].
        { rewrite !length_app in *. simpl in *. lia. }
        exists sn'. by rewrite E.
  - destruct u as [|a u]; cbn [app].
    + destruct (Hv (NL :: sn)) as [sn' E]. exists sn'. by rewrite E.
    + destruct (Hrec (a :: sn) u) as [sn' E].
      { rewrite !length_app in *. simpl in *. lia. }
      exists sn'. by rewrite E.
Qed.

End LineFacts.

(** ** What a scan finds in a note that carries a rendered section *)

Module RescanFacts.
Import Str StrFacts ReFacts RenderFacts LineFacts.

Lemma wiki_link_line_bound : line_bound wiki_link_pattern.
Proof. repeat split; by_compute. Qed.

Lemma links_of_nil : links_of [] [].
Proof. intros [|fuel] sn Hf; [simpl in Hf; lia|done]. Qed.

Lemma links_of_skip a t links :
  a ≠ "["%char → links_of t links → links_of (a :: t) links.
Proof.
  intros Ha Ht [|fuel] sn Hf; [simpl in Hf; lia|].
  cbn [findall_loop]. rewrite wiki_link_not_here by done.
  apply Ht. simpl in Hf. lia.
Qed.

Lemma links_of_skip_all pre t links :
  "["%char ∉ pre → links_of t links → links_of (pre ++ t) links.
Proof.
  induction pre as [|a pre IH]; [done|].
  intros [Ha Hpre]%not_elem_of_cons Ht. rewrite <- app_comm_cons.
  apply links_of_skip; [done|by apply IH].
Qed.

Lemma links_of_link target post links :
  Forall plain_char target → links_of post links →
  links_of (txt "[[" ++ target ++ txt "]]" ++ post) (target :: links).
Proof.
  intros Ht Hpost [|fuel] sn Hf; [simpl in Hf; lia|].
  cbn [findall_loop]. rewrite wiki_link_here by done. cbn [ahead group1 seen default].
  rewrite !length_app in Hf |- *.
  rewrite decide_True by (simpl; lia). f_equal. apply Hpost. simpl in Hf. lia.
Qed.

Lemma links_of_lines titles :
  Forall (Forall plain_char) titles →
  links_of (concat (entry_line <$> titles) ++ [NL]) titles.
Proof.
  induction 1 as [|title titles Ht _ IH].
  - apply links_of_skip; [done|apply links_of_nil].
  - rewrite fmap_cons. cbn [concat].
    assert ((entry_line title ++ concat (entry_line <$> titles)) ++ [NL] =
            txt "- " ++ txt "[[" ++ title ++ txt "]]" ++
            NL :: concat (entry_line <$> titles) ++ [NL]) as ->.
    { unfold entry_line at 1. by rewrite <- !app_assoc. }
    apply links_of_skip_all; [by_compute|].
    apply links_of_link; [done|]. by apply links_of_skip.
Qed.

(** A scan of a rendered section finds the titles it lists, when no
    title holds a newline, a bar or a closing bracket. *)
Lemma links_of_section refs :
  Forall (λ r : reference, Forall plain_char r.1) refs →
  links_of (new_section refs) refs.*1.
Proof.
  intros H. rewrite new_section_lines.
  apply links_of_skip_all; [by_compute|].
  apply links_of_lines. by apply Forall_fmap.
Qed.

Lemma parse_links_line u v links file_path :
  links_of v links →
  parse_links (u ++ NL :: v) file_path = parse_links u file_path ++ links.
Proof.
  intros Hv. unfold parse_links, findall.
  destruct (findall_line wiki_link_pattern (S (length (u ++ NL :: v))) [] u v)
    as [sn' E]; [apply wiki_link_line_bound|lia|].
  rewrite E. f_equal.
  - apply findall_loop_fuel; rewrite ?length_app; simpl; lia.
  - apply Hv. rewrite length_app. simpl. lia.
Qed.

(** The links of a note to which a section was appended: its own, then
    those of the section. *)
Lemma parse_links_separated content v links file_path :
  links_of v links →
  parse_links (separated content ++ v) file_path =
  parse_links content file_path ++ links.
Proof.
  intros Hv. unfold separated.
  destruct (endswith content [NL; NL]) eqn:E2.
  - apply endswith_true in E2 as [c' ->].
    replace ((c' ++ [NL; NL]) ++ v) with (c' ++ NL :: (NL :: v))
      by (by rewrite <- app_assoc).
    rewrite (parse_links_line c' (NL :: v) links) by (by apply links_of_skip).
    rewrite (parse_links_line c' [NL] []); [by rewrite app_nil_r|].
    apply links_of_skip; [done|apply links_of_nil].
  - destruct (endswith content [NL]) eqn:E1.
    + rewrite <- app_assoc. by apply parse_links_line.
    + rewrite <- app_assoc. apply parse_links_line. by apply links_of_skip.
Qed.

(** *** Literal-text references *)

Lemma startswith_line s t v :
  NL ∉ s → startswith (t ++ NL :: v) s = startswith t s.
Proof.
  intros Hs. unfold startswith. rewrite strip_prefix_line by done.
  by destruct (strip_prefix s t).
Qed.

Lemma endswith_line s t u :
  NL ∉ s → endswith (u ++ NL :: t) s = endswith t s.
Proof.
  intros Hs. unfold endswith.
  rewrite reverse_app, reverse_cons, <- app_assoc. apply startswith_line.
  by rewrite elem_of_reverse.
Qed.

Lemma found_iff title s :
  found title s ↔
  ∃ pre post, s = pre ++ title ++ post ∧
              endswith pre (txt "[[") = false ∧
              startswith post (txt "]]") = false.
Proof. apply text_reference_search. Qed.

Lemma found_nil title : title ≠ [] → ¬ found title [].
Proof.
  intros Hne (pre & post & E & _)%found_iff.
  symmetry in E. apply app_eq_nil in E as [_ E]. by apply app_eq_nil in E as [? _].
Qed.

(** A title without a newline is found in a text exactly when it is
    found in its first line or in the rest. *)
Lemma found_line title u v :
  NL ∉ title → title ≠ [] →
  found title (u ++ NL :: v) ↔ found title u ∨ found title v.
Proof.
  intros Hnl Hne. rewrite !found_iff. split.
  - intros (pre & post & E & Hpre & Hpost).
    apply app_eq_inv in E as [(k & E1 & E)|(k & E1 & E)].
    + left. apply app_eq_inv in E as [(k' & E2 & E)|(k' & E2 & E)].
      * destruct k' as [|a k']; simpl in E.
        -- subst. exists pre, []. by rewrite !app_nil_r.
        -- injection E as <- _. destruct Hnl. subst title.
           apply elem_of_app. right. by left.
      * subst. exists pre, k'. split_and!; [by rewrite <- ?app_assoc|done|].
        by rewrite startswith_line in Hpost by by_compute.
    + right. destruct k as [|a k]; simpl in E.
      * destruct title as [|b title]; [done|]. injection E as <- _.
        destruct Hnl. by left.
      * injection E as <- ->. subst pre. exists k, post. split_and!; [done| |done].
        by rewrite endswith_line in Hpre by by_compute.
  - intros [(pre & post & -> & Hpre & Hpost)|(pre & post & -> & Hpre & Hpost)].
    + exists pre, (post ++ NL :: v). split_and!; [by rewrite <- ?app_assoc|done|].
      by rewrite startswith_line by by_compute.
    + exists (u ++ NL :: pre), post. split_and!; [by rewrite <- ?app_assoc| |done].
      by rewrite endswith_line by by_compute.
Qed.

Lemma find_text_references_ext s1 s2 titles :
  (∀ x, x ∈ titles → 3 ≤ length x → found x s1 ↔ found x s2) →
  find_text_references s1 titles = find_text_references s2 titles.
Proof.
  unfold find_text_references.
  set (step := λ (s : str) (references : list str) (title : str),
         if decide (length title < 3) then references
         else match search (text_reference_pattern title) s with
              | Some _ => references ++ [title]
              | None => references
              end).
  intros H. change (foldl (step s1) [] titles = foldl (step s2) [] titles).
  revert H. generalize (@nil str) as acc.
  induction titles as [|t titles IH]; intros acc H; [done|].
  cbn [foldl].
  assert (step s1 acc t = step s2 acc t) as ->.
  { unfold step. case_decide; [done|].
    assert (found t s1 ↔ found t s2) as Ht by (apply H; [by left|lia]).
    unfold found in Ht.
    destruct (search (text_reference_pattern t) s1) as [m1|] eqn:E1,
             (search (text_reference_pattern t) s2) as [m2|] eqn:E2; try done.
    - exfalso. eapply is_Some_None. apply Ht. eauto.
    - exfalso. eapply is_Some_None. apply Ht. eauto. }
  apply IH. intros x Hx. apply H. by right.
Qed.

Lemma find_text_references_nil s titles x :
  find_text_references s titles = [] → x ∈ titles → 3 ≤ length x → ¬ found x s.
Proof.
  intros E Hx Hlen Hf.
  assert (x ∈ find_text_references s titles) as Hin
    by (by apply find_text_references_elem).
  rewrite E in Hin. by apply elem_of_nil in Hin.
Qed.

(** Appending a section adds no literal-text reference, when no known
    title is found in the heading or in a line of the section. *)
Lemma find_text_references_separated content refs titles :
  Forall (λ x, NL ∉ x) titles →
  find_text_references (txt "## Backlinks") titles = [] →
  Forall (λ r : reference,
            find_text_references (txt "- [[" ++ r.1 ++ txt "]]") titles = []) refs →
  find_text_references (separated content ++ new_section refs) titles =
  find_text_references content titles.
Proof.
  intros Hnl Hhead Hlines. apply find_text_references_ext. intros x Hx Hlen.
  assert (NL ∉ x) as Hx_nl by (rewrite Forall_forall in Hnl; by apply Hnl).
  assert (x ≠ []) as Hx_ne by (intros ->; simpl in Hlen; lia).
  assert (¬ found x []) as Hnil by (by apply found_nil).
  assert (¬ found x (concat (entry_line <$> refs.*1) ++ [NL])) as Hbody.
  { induction Hlines as [|r refs Hr _ IH].
    - change (¬ found x ([] ++ NL :: [])). rewrite found_line by done. tauto.
    - rewrite !fmap_cons. cbn [concat].
      assert ((entry_line r.1 ++ concat (entry_line <$> refs.*1)) ++ [NL] =
              (txt "- [[" ++ r.1 ++ txt "]]") ++
              NL :: concat (entry_line <$> refs.*1) ++ [NL]) as ->.
      { unfold entry_line at 1. by rewrite <- !app_assoc. }
      rewrite found_line by done. intros [Hf|Hf]; [|tauto].
      by eapply find_text_references_nil. }
  assert (¬ found x (new_section refs)) as Hsec.
  { rewrite new_section_lines.
    change (HEADING ++ concat (entry_line <$> refs.*1) ++ [NL])
      with (txt "## Backlinks" ++ NL :: ([] ++ NL :: concat (entry_line <$> refs.*1) ++ [NL])).
    rewrite !found_line by done. rewrite found_line in Hbody by done.
    intros [Hf|Hf]; [|tauto]. by eapply find_text_references_nil. }
  unfold separated. destruct (endswith content [NL; NL]) eqn:E2.
  - apply endswith_true in E2 as [c' ->].
    replace ((c' ++ [NL; NL]) ++ new_section refs)
      with (c' ++ NL :: ([] ++ NL :: new_section refs)) by (by rewrite <- app_assoc).
    change (c' ++ [NL; NL]) with (c' ++ NL :: ([] ++ NL :: [])).
    rewrite !found_line by done. tauto.
  - destruct (endswith content [NL]) eqn:E1.
    + rewrite <- app_assoc. change ([NL] ++ new_section refs) with (NL :: new_section refs).
      rewrite found_line by done. tauto.
    + rewrite <- app_assoc.
      change ([NL; NL] ++ new_section refs) with (NL :: ([] ++ NL :: new_section refs)).
      rewrite !found_line by done. tauto.
Qed.

End RescanFacts.

(** ** Runs on a vault that had no section *)

Module ConvergeFacts.
Import Str StrFacts ReFacts SubFacts IoFacts IndexFacts RenderFacts.
Import UpdateFacts PipelineFacts LineFacts RescanFacts.

Lemma filter_ext_in {A} (P Q : A → Prop) `{!∀ x, Decision (P x)}
    `{!∀ x, Decision (Q x)} (l : list A) :
  (∀ x, x ∈ l → P x ↔ Q x) → filter P l = filter Q l.
Proof.
  induction l as [|a l IH]; intros Hext; [done|].
  rewrite !filter_cons.
  assert (P a ↔ Q a) as Ha by (apply Hext; by left).
  rewrite IH by (intros x Hx; apply Hext; by right).
  destruct (decide (P a)), (decide (Q a)); tauto.
Qed.

(** A pass whose every step writes: it returns, and the vault holds
    what the steps wrote. *)
Lemma update_files_ok mode (g : str → str) bl : ∀ v,
  NoDup bl.*1 →
  (∀ t refs, (t, refs) ∈ bl →
     refs ≠ [] ∧ ∃ c, files v !! t = Some c ∧
                      rewrite_content mode refs c = Ok (Some (g t))) →
  ∃ v2, update_files_with_backlinks bl mode v = (Ok (), v2) ∧
        ∀ p, files v2 !! p = if decide (p ∈ bl.*1) then Some (g p)
                             else files v !! p.
Proof.
  induction bl as [|[t refs] bl IH]; intros v Hnd H.
  { exists v. split; [done|]. intros p. rewrite decide_False; [done|].
    by intros ?%elem_of_nil. }
  simpl in Hnd. apply NoDup_cons in Hnd as [Ht Hnd].
  destruct (H t refs) as (Hne & c & Hc & Hrw); [by left|].
  rewrite update_files_cons, update_file_spec, Hc, Hrw.
  destruct refs as [|r refs]; [done|].
  destruct (IH (Vault (<[t:=g t]> (files v)) (written v ++ [t])) Hnd) as (v2 & Hrun & Hv2).
  { intros t' refs' Hin. destruct (H t' refs') as (Hne' & c' & Hc' & Hrw'); [by right|].
    split; [done|]. exists c'. split; [|done]. simpl.
    rewrite lookup_insert_ne; [done|]. intros ->. apply Ht.
    apply list_elem_of_fmap. by exists (t', refs'). }
  exists v2. split; [done|]. intros p. rewrite Hv2. simpl.
  destruct (decide (p = t)) as [->|Hp].
  - rewrite decide_False by done. rewrite decide_True by by left.
    by rewrite lookup_insert_eq.
  - rewrite lookup_insert_ne by done.
    destruct (decide (p ∈ bl.*1)).
    + rewrite decide_True; [done|by right].
    + rewrite decide_False; [done|]. by intros [?|?]%elem_of_cons.
Qed.

(** *** Reading back what was written *)






Section Vault.
Context (markdown_files : list str) (fs : gmap str str).
Context (Hread : readable markdown_files fs).
Context (Huniq : NoDup (extract_note_title <$> markdown_files)).
Context (Htidy : Forall (λ f, tidy_title (extract_note_title f)) markdown_files).
Context (Hfresh : Forall (fresh fs) markdown_files).
Context (Hquiet : quiet_titles (extract_note_title <$> markdown_files)).

Local Abbreviation titles := (extract_note_title <$> markdown_files).

Local Abbreviation scanned_sources := (scanned_sources markdown_files).

Lemma inbound_sources fs' : scanned_sources (inbound markdown_files fs').
Proof.
  intros p r. unfold inbound. case_decide; [|by intros ?%elem_of_nil].
  intros (s & -> & [_ Hs]%list_elem_of_filter)%list_elem_of_fmap. eauto.
Qed.

Lemma registered_scanned t : t ∈ markdown_files → registered markdown_files t.
Proof.
  intros Ht. apply registered_unique; [done|]. intros f Hf E.
  apply list_elem_of_lookup in Hf as [i Hi], Ht as [j Hj].
  assert (i = j) as ->; [|congruence].
  eapply NoDup_lookup; [exact Huniq|by rewrite list_lookup_fmap, Hi; simpl; rewrite E|].
  by rewrite list_lookup_fmap, Hj.
Qed.

Lemma title_inj s t :
  s ∈ markdown_files → t ∈ markdown_files →
  extract_note_title s = extract_note_title t → s = t.
Proof.
  intros Hs Ht E.
  apply list_elem_of_lookup in Hs as [i Hi], Ht as [j Hj].
  assert (i = j) as ->; [|congruence].
  eapply NoDup_lookup; [exact Huniq|by rewrite list_lookup_fmap, Hi; simpl; rewrite E|].
  by rewrite list_lookup_fmap, Hj.
Qed.

(** What a scan extracts from a note of a sectioned vault: what it
    extracts from the note itself, and the titles its section lists. *)
Lemma refers_to_sectioned J fs' t d :
  sectioned fs J fs' → scanned_sources J → d ∈ markdown_files →
  refers_to markdown_files fs' t d ↔
  refers_to markdown_files fs t d ∨ extract_note_title t ∈ (J d).*1.
Proof.
  intros Hsec HJ Hd. unfold refers_to. rewrite (Hsec d).
  unfold readable in Hread. rewrite Forall_forall in Hread.
  destruct (Hread d Hd) as [c ->]. simpl.
  destruct (J d) as [|r refs] eqn:EJ.
  { simpl. rewrite elem_of_nil. tauto. }
  rewrite <- EJ.
  assert (Forall (λ r : reference, tidy_title r.1) (J d)) as Hrefs.
  { apply Forall_forall. intros r' (s & Hs & ->)%HJ. simpl.
    rewrite Forall_forall in Htidy. by apply Htidy. }
  rewrite (parse_links_separated c (new_section (J d)) (J d).*1).
  2: { apply links_of_section. eapply Forall_impl; [exact Hrefs|]. by intros ? [? _]. }
  rewrite find_text_references_separated.
  - rewrite !elem_of_app. tauto.
  - apply Forall_fmap. eapply Forall_impl; [exact Htidy|]. intros f [Hf _]. simpl.
    intros Hin. rewrite Forall_forall in Hf. by destruct (Hf NL Hin) as [? _].
  - apply Hquiet.
  - apply Forall_forall. intros r' (s & Hs & ->)%HJ. simpl.
    destruct Hquiet as [_ Hq]. rewrite Forall_forall in Hq. apply Hq.
    apply list_elem_of_fmap. eauto.
Qed.

(** The titles listed for [d] in the index of [fs'] are those of the
    scanned notes that refer to [d]. *)
Lemma inbound_title fs' t d :
  t ∈ markdown_files → d ∈ markdown_files →
  extract_note_title t ∈ (inbound markdown_files fs' d).*1 ↔
  refers_to markdown_files fs' d t.
Proof.
  intros Ht Hd. unfold inbound. rewrite decide_True by by apply registered_scanned.
  rewrite <- list_fmap_compose. split.
  - intros (s & E & [Hs Hin]%list_elem_of_filter)%list_elem_of_fmap. simpl in E.
    by rewrite (title_inj t s).
  - intros Hr. apply list_elem_of_fmap. exists t. split; [done|].
    by apply list_elem_of_filter.
Qed.

(** One run in replace mode on a sectioned vault. *)
Lemma run_sectioned a walk J fs' :
  find_markdown_files walk = markdown_files →
  mode a = replace →
  sectioned fs J fs' → scanned_sources J →
  (∀ p, J p ≠ [] → inbound markdown_files fs' p ≠ []) →
  ∃ w, run_main a walk fs' =
         (Ok (), Vault (files (run_main a walk fs').2) w) ∧
       sectioned fs (inbound markdown_files fs') (files (run_main a walk fs').2).
Proof.
  intros Hwalk Hmode Hsec HJ Hmono. unfold run_main, main. rewrite Hwalk, Hmode.
  assert (readable markdown_files fs') as Hread'.
  { unfold readable in *. eapply Forall_impl; [exact Hread|]. intros f [c Hc]. simpl.
    rewrite (Hsec f), Hc. eauto. }
  destruct (generate_backlinks_index markdown_files (Vault fs' []) Hread')
    as (bl & Hgen & Hnd & Hin).
  unfold bind. rewrite Hgen. simpl in Hin.
  set (g := λ t, match fs !! t with
                 | Some c => separated c ++ new_section (inbound markdown_files fs' t)
                 | None => []
                 end).
  destruct (update_files_ok replace g bl (Vault fs' []) Hnd) as (v2 & Hrun & Hv2).
  { intros t refs [Hne Hrefs]%Hin. split; [done|].
    assert (t ∈ markdown_files) as Ht by (eapply inbound_scanned; by rewrite Hrefs).
    unfold readable in Hread. rewrite Forall_forall in Hread.
    destruct (Hread t Ht) as [c Hc].
    rewrite Forall_forall in Hfresh. specialize (Hfresh t Ht).
    unfold fresh in Hfresh. rewrite Hc in Hfresh. destruct Hfresh as [Hnone Hsafe].
    assert (Forall (λ r : reference, tidy_title r.1) refs) as Htr.
    { rewrite <- Hrefs. by apply inbound_titles. }
    assert (BACKSLASH ∉ new_section refs) as Hb.
    { apply new_section_plain. eapply Forall_impl; [exact Htr|]. by intros ? [_ ?]. }
    unfold g. rewrite Hc, Hrefs. simpl. rewrite (Hsec t), Hc. simpl.
    destruct (J t) as [|r0 refs0] eqn:EJ.
    - eexists. split; [done|]. unfold rewrite_content.
      apply section_search_None in Hnone. by rewrite Hnone.
    - rewrite <- EJ. eexists. split; [done|].
      assert (Forall (λ r : reference, NL ∉ r.1) (J t)) as Hnl.
      { apply Forall_forall. intros r' (s & Hs & ->)%HJ. simpl.
        rewrite Forall_forall in Htidy. destruct (Htidy s Hs) as [Hp _].
        intros Hin'. rewrite Forall_forall in Hp. by destruct (Hp NL Hin') as [? _]. }
      destruct (new_section_block (J t)) as (body & Hblock & Hbody);
        [by rewrite EJ|done|].
      destruct (rewrite_content_replace refs (separated c ++ new_section (J t)))
        as (out & Hout & ->); [|done|].
      { apply occurs_app_r. rewrite Hblock. apply occurs_true.
        exists [], (body ++ [NL; NL]). done. }
      do 2 f_equal. eapply replaced_unique; [exact Hout|].
      apply (replaced_last _ _ body); [by rewrite Hblock|done..]. }
  rewrite Hrun. simpl. exists (written v2). split; [by destruct v2|].
  intros p. rewrite Hv2. simpl.
  destruct (decide (p ∈ bl.*1)) as [Hp|Hp].
  - apply list_elem_of_fmap in Hp as ([p' refs] & -> & [Hne Hrefs]%Hin). simpl in *.
    assert (p' ∈ markdown_files) as Ht by (eapply inbound_scanned; by rewrite Hrefs).
    unfold readable in Hread. rewrite Forall_forall in Hread.
    destruct (Hread p' Ht) as [c Hc]. unfold g. rewrite Hc. simpl.
    rewrite Hrefs. by destruct refs.
  - assert (inbound markdown_files fs' p = []) as Hnone.
    { destruct (inbound markdown_files fs' p) as [|r refs] eqn:E; [done|].
      destruct Hp. apply list_elem_of_fmap. exists (p, r :: refs). split; [done|].
      apply Hin. by rewrite E. }
    rewrite Hnone, (Hsec p).
    destruct (J p) as [|r refs] eqn:EJ; [done|].
    destruct (Hmono p); [by rewrite EJ|done].
Qed.

Lemma sectioned_refl : sectioned fs (λ _, []) fs.
Proof. intros p. by destruct (fs !! p). Qed.

(** The index only grows when sections are appended. *)
Lemma inbound_grows J fs' p :
  sectioned fs J fs' → scanned_sources J →
  inbound markdown_files fs p ≠ [] → inbound markdown_files fs' p ≠ [].
Proof.
  intros Hsec HJ. unfold inbound. case_decide; [|done].
  intros Hne E. apply fmap_nil_inv in E.
  destruct (filter (refers_to markdown_files fs p) markdown_files) as [|d l] eqn:Ef;
    [done|].
  assert (d ∈ filter (refers_to markdown_files fs p) markdown_files) as Hd
    by (rewrite Ef; by left).
  apply list_elem_of_filter in Hd as [Hr Hd].
  assert (d ∈ filter (refers_to markdown_files fs' p) markdown_files) as Hd'.
  { apply list_elem_of_filter. split; [|done].
    apply (refers_to_sectioned J); [done..|by left]. }
  rewrite E in Hd'. by apply elem_of_nil in Hd'.
Qed.

(** Once the sections of an index are in place, a scan finds that
    index again. *)
Lemma inbound_stable fs1 fs2 t :
  sectioned fs (inbound markdown_files fs) fs1 →
  sectioned fs (inbound markdown_files fs1) fs2 →
  inbound markdown_files fs2 t = inbound markdown_files fs1 t.
Proof.
  intros H1 H2. unfold inbound.
  destruct (decide (registered markdown_files t)) as [Hreg|]; [|done].
  assert (t ∈ markdown_files) as Ht
    by (by apply file_title_map_lookup in Hreg as [_ ?]).
  f_equal. apply filter_ext_in. intros d Hd.
  rewrite (refers_to_sectioned _ fs2 t d H2) by (done || apply inbound_sources).
  rewrite (refers_to_sectioned _ fs1 t d H1) by (done || apply inbound_sources).
  rewrite !inbound_title by done.
  rewrite (refers_to_sectioned _ fs1 d t H1) by (done || apply inbound_sources).
  rewrite inbound_title by done. tauto.
Qed.

(** Three runs in replace mode, from a vault without sections: each
    returns, and the third changes nothing. *)
Lemma three_runs a walk :
  find_markdown_files walk = markdown_files →
  mode a = replace →
  (run_main a walk fs).1 = Ok () ∧
  (run_main a walk (runs a walk 1 fs)).1 = Ok () ∧
  (run_main a walk (runs a walk 2 fs)).1 = Ok () ∧
  runs a walk 3 fs = runs a walk 2 fs.
Proof.
  intros Hwalk Hmode.
  destruct (run_sectioned a walk (λ _, []) fs Hwalk Hmode sectioned_refl)
    as (w1 & Hrun1 & Hsec1); [by intros p r ?%elem_of_nil|done|].
  set (fs1 := files (run_main a walk fs).2) in *.
  destruct (run_sectioned a walk (inbound markdown_files fs) fs1 Hwalk Hmode Hsec1)
    as (w2 & Hrun2 & Hsec2).
  { apply inbound_sources. }
  { intros p. by apply (inbound_grows (inbound markdown_files fs)), inbound_sources. }
  set (fs2 := files (run_main a walk fs1).2) in *.
  destruct (run_sectioned a walk (inbound markdown_files fs1) fs2 Hwalk Hmode Hsec2)
    as (w3 & Hrun3 & Hsec3).
  { apply inbound_sources. }
  { intros p. by rewrite (inbound_stable fs1 fs2 p). }
  change (runs a walk 1 fs) with fs1. change (runs a walk 2 fs) with fs2.
  change (runs a walk 3 fs) with (files (run_main a walk fs2).2).
  split_and!; [by rewrite Hrun1|by rewrite Hrun2|by rewrite Hrun3|].
  apply map_eq. intros p. rewrite (Hsec3 p), (Hsec2 p).
  by rewrite (inbound_stable fs1 fs2 p).
Qed.



End Vault.

End ConvergeFacts.

(** * The claims *)

Import StrFacts ReFacts SubFacts IoFacts IndexFacts RenderFacts.
Import UpdateFacts PipelineFacts Example.

(** ** Reference extraction *)

(** C6 fails as stated: the title [Alpha] is reported for a note in
    which its only occurrence lies inside the brackets of a link. *)
Lemma title_reported_inside_brackets :
  txt "Alpha" ∈ find_text_references (txt "[[see Alpha here]]")
                  [txt "Alpha"; txt "Beta"] ∧
  ∀ pre post, txt "[[see Alpha here]]" = pre ++ txt "Alpha" ++ post →
              enclosed pre post.
Proof.
  split; [by_compute|]. intros pre post H.
  assert (pre = txt "[[see " ∧ post = txt " here]]") as [-> ->].
  { vm_compute in H.
    do 19 (destruct pre as [|? pre]; [by simplify_eq/=|]); simplify_eq/=. }
  split.
  - exists [], (txt "see "). by split.
  - exists (txt " here"), []. by split.
Qed.

(** C6, as amended.  The literal-text strategy reports a title only
    when it is a known title of length at least 3 that occurs in the
    content at a position with no [[[] immediately before it and no
    []]] immediately after it; brackets further away are not looked
    at. *)
Theorem literal_text_only_outside_brackets content note_titles title :
  title ∈ find_text_references content note_titles →
  title ∈ note_titles ∧ 3 ≤ length title ∧
  ∃ pre post, content = pre ++ title ++ post ∧
              Str.endswith pre (txt "[[") = false ∧
              Str.startswith post (txt "]]") = false.
Proof.
  intros (Hin & Hlen & Hs)%find_text_references_elem.
  by apply text_reference_search in Hs.
Qed.

Lemma literal_text_only_outside_brackets_witness :
  txt "Alpha" ∈ [txt "Alpha"; txt "Beta"] ∧ 3 ≤ length (txt "Alpha") ∧
  ∃ pre post, txt "Alpha is interesting" = pre ++ txt "Alpha" ++ post ∧
              Str.endswith pre (txt "[[") = false ∧
              Str.startswith post (txt "]]") = false.
Proof.
  apply (literal_text_only_outside_brackets
           (txt "Alpha is interesting") [txt "Alpha"; txt "Beta"] (txt "Alpha")).
  by_compute.
Defined.

(** C9.  A title shorter than 3 characters is never reported by the
    literal-text strategy, whatever the content holds. *)
Theorem short_titles_never_matched content note_titles title :
  length title < 3 → title ∉ find_text_references content note_titles.
Proof. intros Hlen (_ & Hlen' & _)%find_text_references_elem. lia. Qed.

Lemma short_titles_never_matched_witness :
  txt "B" ∉ find_text_references (txt "B is interesting") [txt "A"; txt "B"; txt "C"].
Proof.
  apply (short_titles_never_matched (txt "B is interesting")
           [txt "A"; txt "B"; txt "C"] (txt "B")).
  vm_compute. lia.
Defined.

(** ** The index *)

(** C10.  A reference title that is the title of no scanned note is
    skipped by the loop that fills the index, the scan returns without
    an exception, and the index holds nothing under a note of that
    title. *)
Theorem unresolved_titles_ignored markdown_files fs w ref :
  readable markdown_files fs →
  ref ∉ extract_note_title <$> markdown_files →
  (∀ source bl, add_ref (file_title_map markdown_files) source bl ref = bl) ∧
  ∃ bl, generate_backlinks markdown_files (Vault fs w) = (Ok bl, Vault fs w) ∧
        ∀ t, extract_note_title t = ref → bl_lookup t bl = None.
Proof.
  intros Hr Href.
  assert (file_title_map markdown_files !! ref = None) as Hnone.
  { apply file_title_map_None. intros f Hf E. apply Href.
    apply list_elem_of_fmap. eauto. }
  split.
  - intros source bl. unfold add_ref. by rewrite Hnone.
  - destruct (generate_backlinks_lookup markdown_files (Vault fs w) Hr)
      as (bl & Hbl & Hlook).
    exists bl. split; [done|]. intros t Ht. rewrite Hlook. unfold inbound.
    rewrite decide_False; [done|]. unfold registered. rewrite Ht. congruence.
Qed.

Lemma unresolved_titles_ignored_witness :
  (∀ source bl,
     add_ref (file_title_map (find_markdown_files scenario_walk)) source bl
       (txt "Nowhere") = bl) ∧
  ∃ bl, generate_backlinks (find_markdown_files scenario_walk) (Vault scenario [])
          = (Ok bl, Vault scenario []) ∧
        ∀ t, extract_note_title t = txt "Nowhere" → bl_lookup t bl = None.
Proof.
  apply (unresolved_titles_ignored (find_markdown_files scenario_walk)
           scenario [] (txt "Nowhere")); by_compute.
Defined.

Lemma filter_fmap {A B} (f : A → B) (P : B → Prop) `{!∀ x, Decision (P x)}
    (l : list A) :
  filter P (f <$> l) = f <$> filter (λ a, P (f a)) l.
Proof.
  induction l as [|a l IH]; [done|].
  rewrite fmap_cons, !filter_cons. case_decide; by rewrite IH.
Qed.

(** C4, as amended.  When the explicit links of a note [d1] name the
    title of a registered note [d2], and [d1] is the only scanned note
    of its title, the references rendered for [d2] list the title of
    [d1] exactly once, however often [d1] links; the references follow
    the order in which the notes are scanned, and each is rendered as
    one line. *)
Theorem backlink_listed_once markdown_files fs d1 d2 c1 :
  readable markdown_files fs →
  registered markdown_files d2 →
  filter (λ f, extract_note_title f = extract_note_title d1) markdown_files = [d1] →
  fs !! d1 = Some c1 →
  extract_note_title d2 ∈ parse_links c1 d1 →
  entries_for (extract_note_title d1) (section_references markdown_files fs d2) = 1 ∧
  (section_references markdown_files fs d2).*2 `sublist_of` markdown_files ∧
  new_section (section_references markdown_files fs d2) =
    HEADING ++
    concat (entry_line <$> (section_references markdown_files fs d2).*1) ++ [NL].
Proof.
  intros Hr Hreg Hone Hc1 Hlink.
  assert (refers_to markdown_files fs d2 d1) as Hrefers.
  { unfold refers_to. rewrite Hc1. apply elem_of_app. by left. }
  assert (section_references markdown_files fs d2 =
          (λ f, (extract_note_title f, f)) <$>
            filter (refers_to markdown_files fs d2) markdown_files) as ->.
  { unfold section_references.
    destruct (generate_backlinks_lookup markdown_files (Vault fs []) Hr)
      as (bl & -> & Hlook).
    rewrite Hlook. unfold inbound. rewrite decide_True by done. simpl.
    by destruct (_ <$> filter _ markdown_files). }
  split_and!.
  - unfold entries_for. rewrite (filter_fmap _ (λ r : reference, r.1 = _)). simpl.
    rewrite length_fmap, list_filter_filter.
    rewrite (list_filter_iff _ (λ f, refers_to markdown_files fs d2 f ∧
                                     extract_note_title f = extract_note_title d1))
      by tauto.
    rewrite <- list_filter_filter, Hone. by rewrite filter_cons_True.
  - assert (∀ l : list str, ((λ f, (extract_note_title f, f)) <$> l).*2 = l) as ->.
    { induction l as [|f l IH]; [done|]. rewrite !fmap_cons. by f_equal. }
    apply sublist_filter.
  - apply new_section_lines.
Qed.

Lemma backlink_listed_once_witness :
  entries_for (extract_note_title (txt "vault/A.md"))
    (section_references (find_markdown_files scenario_walk) scenario
       (txt "vault/B.md")) = 1 ∧
  (section_references (find_markdown_files scenario_walk) scenario
     (txt "vault/B.md")).*2 `sublist_of` find_markdown_files scenario_walk ∧
  new_section (section_references (find_markdown_files scenario_walk) scenario
                 (txt "vault/B.md")) =
    HEADING ++
    concat (entry_line <$>
              (section_references (find_markdown_files scenario_walk) scenario
                 (txt "vault/B.md")).*1) ++ [NL].
Proof.
  apply (backlink_listed_once (find_markdown_files scenario_walk) scenario
           (txt "vault/A.md") (txt "vault/B.md") (txt "see [[B]] and [[B]] again"));
    by_compute.
Defined.

(** C4 fails as stated: two notes of one title that both link to [T]
    give its section two lines for that title, and a note whose link
    to [T] follows an opening bracket gives it none. *)
Lemma backlink_listed_twice_or_never :
  twin_vault !! txt "vault/a/X.md" = Some (txt "[[T]]") ∧
  Str.occurs (txt "[[T]]") (txt "[[T]]") = true ∧
  entries_for (txt "X")
    (section_references (find_markdown_files twin_walk) twin_vault
       (txt "vault/T.md")) = 2 ∧
  twin_vault !! txt "vault/Y.md" = Some (txt "[[[T]]") ∧
  Str.occurs (txt "[[T]]") (txt "[[[T]]") = true ∧
  entries_for (txt "Y")
    (section_references (find_markdown_files twin_walk) twin_vault
       (txt "vault/T.md")) = 0.
Proof. split_and!; by vm_compute. Qed.

(** ** The command line *)

(** C1 (defect in the code).  [main] parses [--text-refs] and never
    consults it, so a run does the same with the flag on or off; with
    the flag off, [Beta], which holds no link, is still recorded as
    referring to [Alpha], whose title it mentions. *)
Theorem text_refs_flag_is_ignored :
  (∀ vault_path mode walk fs,
     run_main (Args vault_path mode false) walk fs =
     run_main (Args vault_path mode true) walk fs) ∧
  text_refs (default_args (txt "notes")) = false ∧
  parse_links (txt "Alpha is interesting") (txt "notes/Beta.md") = [] ∧
  run_main (default_args (txt "notes")) plain_walk plain_vault =
    (Ok (),
     Vault (<[txt "notes/Alpha.md" := Alpha_with_backlink]> plain_vault)
           [txt "notes/Alpha.md"]).
Proof. split_and!; [done|by vm_compute..]. Qed.

(** C5 fails as stated: with literal-text matching asked for, the
    section written into [B.md] has no line for [C]. *)
Lemma scenario_has_no_entry_for_C :
  ¬ ∃ c, files (run_main (Args (txt "vault") append true) scenario_walk scenario).2
           !! txt "vault/B.md" = Some c ∧
         Str.occurs (txt "- [[C]]") c = true.
Proof.
  intros (c & Hc & Ho). vm_compute in Hc. injection Hc as <-.
  by vm_compute in Ho.
Qed.

(** C5, as amended.  In the scenario, with literal-text matching asked
    for, the title [B] is too short to be matched in [C.md], and the run
    writes into [B.md] a section whose only line is the one for [A]. *)
Theorem scenario_literal_text :
  find_text_references (txt "B is interesting")
    (extract_note_title <$> find_markdown_files scenario_walk) = [] ∧
  run_main (Args (txt "vault") append true) scenario_walk scenario =
    (Ok (),
     Vault (<[txt "vault/B.md" := B_with_backlink]> scenario)
           [txt "vault/B.md"]).
Proof. split_and!; by vm_compute. Qed.

(** ** Rewriting *)

(** C2 fails as stated: in a note with two sections, replace mode
    rewrites the second one too. *)
Lemma replace_rewrites_later_blocks :
  files (update_file replace (txt "vault/T.md", one_reference) T_vault).2
    !! txt "vault/T.md" = Some both_replaced ∧
  replace_first_block (new_section one_reference) two_sections = first_replaced ∧
  both_replaced ≠ first_replaced.
Proof. split_and!; [by vm_compute..|by_compute]. Qed.

(** C2, as amended.  In replace mode, a note whose content holds a
    heading marker is written back with every block replaced by the
    newly rendered section, not only the first: [replaced] describes
    the blocks, each from a heading marker through the next blank line
    or to the end of the text. *)
Theorem replace_rewrites_every_block t refs v content :
  refs ≠ [] →
  files v !! t = Some content →
  Str.occurs HEADING content = true →
  Forall (λ r : reference, BACKSLASH ∉ r.1) refs →
  ∃ out, replaced (new_section refs) content out ∧
         update_file replace (t, refs) v =
           (Ok (), Vault (<[t := out]> (files v)) (written v ++ [t])).
Proof.
  intros Hne Hc Hs Hb.
  destruct (rewrite_content_replace refs content Hs) as (out & Hout & Hrw).
  { by apply new_section_plain. }
  exists out. split; [done|].
  rewrite update_file_spec, Hc, Hrw. by destruct refs.
Qed.

Lemma replace_rewrites_every_block_witness :
  ∃ out, replaced (new_section one_reference) two_sections out ∧
         update_file replace (txt "vault/T.md", one_reference) T_vault =
           (Ok (), Vault (<[txt "vault/T.md" := out]> (files T_vault))
                         (written T_vault ++ [txt "vault/T.md"])).
Proof.
  apply (replace_rewrites_every_block (txt "vault/T.md") one_reference
           T_vault two_sections); [by_compute|by vm_compute..|by_compute].
Defined.

(** C7.  In append mode, a note whose content already holds the heading
    marker of a section is left byte for byte as it was and is not
    written; the run itself returns normally when the markdown files
    can be read. *)
Theorem append_keeps_existing_section a walk fs p c :
  mode a = append →
  fs !! p = Some c →
  Str.occurs HEADING c = true →
  files (run_main a walk fs).2 !! p = Some c ∧
  (p ∉ written (run_main a walk fs).2) ∧
  (readable (find_markdown_files walk) fs → (run_main a walk fs).1 = Ok ()).
Proof.
  intros Hmode Hc Hs. unfold run_main, main. rewrite Hmode.
  set (mf := find_markdown_files walk).
  pose proof (generate_backlinks_vault remove_dups mf (Vault fs [])) as Hv.
  fold (generate_backlinks mf) in Hv.
  unfold bind. destruct (generate_backlinks mf (Vault fs [])) as [[bl|e] v] eqn:Hgen;
    simpl in Hv; subst v.
  - destruct (update_files_untouched append p bl (Vault fs [])) as [H1 H2].
    { intros refs v' _ Hv'. eapply update_file_append_section; [|done].
      by rewrite Hv'. }
    split_and!.
    + by rewrite H1.
    + intros Hin. by apply H2, elem_of_nil in Hin.
    + intros Hr. apply update_files_append_ok.
      destruct (generate_backlinks_index mf (Vault fs []) Hr) as (bl' & Hbl' & _ & Hin).
      rewrite Hgen in Hbl'. injection Hbl' as <-.
      apply Forall_forall. intros [t refs] [Hne Hinb]%Hin. simpl in *.
      unfold inbound in Hinb. destruct (decide (registered mf t)) as [Hreg|]; [|done].
      apply file_title_map_lookup in Hreg as [_ Ht].
      unfold readable in Hr. rewrite Forall_forall in Hr. by apply Hr.
  - split_and!; [done|by intros ?%elem_of_nil|].
    intros Hr. destruct (generate_backlinks_index mf (Vault fs []) Hr) as (bl' & Hbl' & _).
    congruence.
Qed.

Lemma append_keeps_existing_section_witness :
  files (run_main (default_args (txt "vault")) scenario_walk
           (<[txt "vault/B.md" := B_with_backlink]> scenario)).2
    !! txt "vault/B.md" = Some B_with_backlink ∧
  (txt "vault/B.md" ∉
    written (run_main (default_args (txt "vault")) scenario_walk
               (<[txt "vault/B.md" := B_with_backlink]> scenario)).2) ∧
  (readable (find_markdown_files scenario_walk)
     (<[txt "vault/B.md" := B_with_backlink]> scenario) →
   (run_main (default_args (txt "vault")) scenario_walk
      (<[txt "vault/B.md" := B_with_backlink]> scenario)).1 = Ok ()).
Proof.
  apply (append_keeps_existing_section (default_args (txt "vault")) scenario_walk
           (<[txt "vault/B.md" := B_with_backlink]> scenario)
           (txt "vault/B.md") B_with_backlink); by vm_compute.
Defined.

(** C8.  A note with no inbound reference is not written and keeps its
    content, in both modes, whatever becomes of the run. *)
Theorem no_inbound_no_write a walk fs p :
  inbound (find_markdown_files walk) fs p = [] →
  files (run_main a walk fs).2 !! p = fs !! p ∧
  p ∉ written (run_main a walk fs).2.
Proof.
  intros Hin. unfold run_main, main.
  set (mf := find_markdown_files walk) in *.
  pose proof (generate_backlinks_vault remove_dups mf (Vault fs [])) as Hv.
  fold (generate_backlinks mf) in Hv.
  unfold bind. destruct (generate_backlinks mf (Vault fs [])) as [[bl|e] v] eqn:Hgen;
    simpl in Hv; subst v.
  - pose proof (generate_backlinks_readable _ _ _ _ _ Hgen) as Hr.
    destruct (generate_backlinks_lookup mf (Vault fs []) Hr) as (bl' & Hbl' & Hlook).
    rewrite Hgen in Hbl'. injection Hbl' as <-.
    specialize (Hlook p). simpl in Hlook. rewrite Hin in Hlook.
    destruct (update_files_untouched (mode a) p bl (Vault fs [])) as [H1 H2].
    { intros refs v' [x Hx]%bl_lookup_elem_of. congruence. }
    split; [done|]. intros Hw. by apply H2, elem_of_nil in Hw.
  - split; [done|]. by intros ?%elem_of_nil.
Qed.

Lemma no_inbound_no_write_witness :
  files (run_main replace_args scenario_walk scenario).2 !! txt "vault/C.md"
    = scenario !! txt "vault/C.md" ∧
  txt "vault/C.md" ∉ written (run_main replace_args scenario_walk scenario).2.
Proof.
  apply (no_inbound_no_write replace_args scenario_walk scenario (txt "vault/C.md")).
  by vm_compute.
Defined.
Import ConvergeFacts.

(** ** Repeated runs *)


(** On the scenario the second and the third run do agree. *)
Example scenario_runs_converge :
  reruns replace_args scenario_walk 2 scenario =
  reruns replace_args scenario_walk 3 scenario.
Proof. by vm_compute. Qed.



(** * Further properties of the code *)

(** ** Paths and titles *)

Module PathFacts.
Import Str StrFacts.

Lemma before_char_notin c s : c ∉ before_char c s.
Proof.
  induction s as [|a s IH]; simpl; [apply not_elem_of_nil|].
  case_decide; [apply not_elem_of_nil|].
  apply not_elem_of_cons. split; [congruence|done].
Qed.

Lemma before_char_all c s : c ∉ s → before_char c s = s.
Proof.
  induction s as [|a s IH]; [done|]. intros [Ha Hs]%not_elem_of_cons. simpl.
  rewrite decide_False by congruence. by rewrite IH.
Qed.

Lemma before_char_app c s r : c ∉ s → before_char c (s ++ c :: r) = s.
Proof.
  induction s as [|a s IH]; intros Hs; simpl.
  - by rewrite decide_True.
  - apply not_elem_of_cons in Hs as [Ha Hs].
    rewrite decide_False by congruence. by rewrite IH.
Qed.

Lemma before_char_split c s :
  before_char c s = s ∨ ∃ r, s = before_char c s ++ c :: r.
Proof.
  induction s as [|a s IH]; [by left|]. simpl. case_decide as Ha.
  - right. exists s. by rewrite Ha.
  - destruct IH as [->|[r Hr]]; [by left|]. right. exists r. simpl. congruence.
Qed.

(** [basename]: the path is a directory part, empty or ending in a
    slash, followed by the base name, which holds no slash. *)
Lemma basename_split p :
  ∃ dir, p = dir ++ basename p ∧ ("/"%char ∉ basename p) ∧
         (dir = [] ∨ endswith dir (txt "/") = true).
Proof.
  unfold basename.
  pose proof (before_char_notin "/"%char (reverse p)) as Hn.
  destruct (before_char_split "/"%char (reverse p)) as [E|[r E]].
  - exists []. rewrite E, reverse_involutive. split_and!; [done| |by left].
    rewrite E in Hn. by rewrite elem_of_reverse in Hn.
  - exists (reverse r ++ txt "/"). split_and!.
    + rewrite <- (reverse_involutive p) at 1. rewrite E at 1.
      rewrite reverse_app, reverse_cons. by rewrite <- !app_assoc.
    + by rewrite elem_of_reverse.
    + right. apply endswith_true. by eexists.
Qed.

Lemma basename_app dir b :
  "/"%char ∉ b → dir = [] ∨ endswith dir (txt "/") = true →
  basename (dir ++ b) = b.
Proof.
  intros Hb Hdir. unfold basename. rewrite reverse_app.
  destruct Hdir as [->|[r ->]%endswith_true].
  - rewrite reverse_nil, app_nil_r, before_char_all; [apply reverse_involutive|].
    by rewrite elem_of_reverse.
  - rewrite reverse_app. simpl. rewrite before_char_app;
      [apply reverse_involutive|by rewrite elem_of_reverse].
Qed.

(** [os.path.join]: the second path is kept at the end, after nothing
    or after a directory part that ends in a slash. *)
Lemma path_join_split a b :
  ∃ dir, path_join a b = dir ++ b ∧
         (startswith b (txt "/") = false →
          dir = [] ∨ endswith dir (txt "/") = true).
Proof.
  unfold path_join. destruct (startswith b (txt "/")) eqn:Hb.
  - exists []. split; [reflexivity|]. intros; discriminate.
  - destruct (bool_decide (a = [])) eqn:Ha; cbn [orb].
    + apply bool_decide_eq_true in Ha as ->. exists []. split; [done|]. by left.
    + destruct (endswith a (txt "/")) eqn:He.
      * exists a. split; [done|]. by right.
      * exists (a ++ txt "/"). split; [by rewrite <- app_assoc|].
        intros _. right. apply endswith_true. by eexists.
Qed.

Lemma startswith_notin a b : a ∉ b → startswith b [a] = false.
Proof.
  intros Hb. destruct b as [|c b]; [done|]. unfold startswith. simpl.
  apply not_elem_of_cons in Hb as [Hc _]. by rewrite decide_False.
Qed.

Lemma basename_path_join a b : "/"%char ∉ b → basename (path_join a b) = b.
Proof.
  intros Hb. destruct (path_join_split a b) as (dir & -> & Hdir).
  apply basename_app; [done|]. apply Hdir. by apply (startswith_notin "/"%char).
Qed.

Lemma endswith_app s p d : endswith s p = true → endswith (d ++ s) p = true.
Proof.
  intros [r ->]%endswith_true. apply endswith_true. exists (d ++ r).
  by rewrite <- app_assoc.
Qed.

Lemma forallb_dots_false (t : str) a :
  a ∈ t → a ≠ "."%char →
  forallb (λ a, bool_decide (a = "."%char)) t = false.
Proof.
  intros Ha Hne. apply not_true_is_false. intros Hall.
  rewrite forallb_forall in Hall. specialize (Hall a).
  rewrite <- list_elem_of_In in Hall. apply Hall, bool_decide_eq_true in Ha. done.
Qed.

(** [os.path.splitext] of a name [t.md]. *)
Lemma splitext_root_md t a :
  a ∈ t → a ≠ "."%char → splitext_root (t ++ txt ".md") = t.
Proof.
  intros Ha Hne. unfold splitext_root.
  assert (before_char "."%char (reverse (t ++ txt ".md")) = txt "dm") as ->.
  { rewrite reverse_app. done. }
  rewrite length_app. simpl.
  rewrite decide_False by (apply list_elem_of_lookup in Ha as [i Hi];
                           apply lookup_lt_Some in Hi; lia).
  replace (length t + 3 - 3) with (length t) by lia.
  rewrite take_app_length. by rewrite (forallb_dots_false t a).
Qed.

(** The root that [os.path.splitext] keeps is the name up to some
    extension, which is empty or starts with its only dot. *)
Lemma splitext_root_split b :
  ∃ ext, b = splitext_root b ++ ext ∧
         (ext = [] ∨ ∃ e, ext = "."%char :: e ∧ "."%char ∉ e).
Proof.
  unfold splitext_root.
  pose proof (before_char_notin "."%char (reverse b)) as Hn.
  destruct (before_char_split "."%char (reverse b)) as [E|[r E]].
  - rewrite E, length_reverse, decide_True by done.
    exists []. split; [by rewrite app_nil_r|by left].
  - set (ext := before_char "."%char (reverse b)) in *. clearbody ext.
    assert (b = reverse r ++ "."%char :: reverse ext) as Hb.
    { rewrite <- (reverse_involutive b), E, reverse_app, reverse_cons.
      by rewrite <- app_assoc. }
    assert (length b = length r + S (length ext)) as Hlen.
    { rewrite Hb. rewrite length_app. simpl. by rewrite !length_reverse. }
    rewrite decide_False by lia.
    assert (take (length b - S (length ext)) b = reverse r) as ->.
    { rewrite Hlen, Hb.
      replace (length r + S (length ext) - S (length ext))
        with (length (reverse r)) by (rewrite length_reverse; lia).
      apply take_app_length. }
    destruct (forallb _ (reverse r)).
    + exists []. split; [by rewrite app_nil_r|by left].
    + exists ("."%char :: reverse ext). split; [done|]. right.
      eexists. split; [done|]. by rewrite elem_of_reverse.
Qed.

Lemma title_no_slash p : "/"%char ∉ extract_note_title p.
Proof.
  unfold extract_note_title.
  destruct (basename_split p) as (dir & _ & Hb & _).
  destruct (splitext_root_split (basename p)) as (ext & E & _).
  rewrite E in Hb. rewrite elem_of_app in Hb. tauto.
Qed.

End PathFacts.

(** ** Explicit links *)

Module LinkFacts.
Import Str StrFacts ReFacts LineFacts RescanFacts.

(** What a match leaves to the rest of a scan: the text ahead and the
    capture. *)
Local Abbreviation rest_of := (λ c : cursor, (ahead c, group1 c)).

Lemma dot_line a : dot false a = true ↔ a ≠ NL.
Proof.
  unfold dot. simpl. rewrite negb_true_iff, bool_decide_eq_false. done.
Qed.

Lemma Forall_dot_line x : Forall (λ a, dot false a = true) x ↔ NL ∉ x.
Proof.
  rewrite Forall_forall. split.
  - intros H Hin. by apply H, dot_line in Hin.
  - intros H a Ha. apply dot_line. by intros ->.
Qed.

Lemma lazy_dots_here {R} d (K : cursor → option R) sn t g r :
  K (Cursor sn t g) = Some r → lazy_dots d K sn t g = Some r.
Proof. intros H. destruct t; simpl; by rewrite H. Qed.

(** [.*?] passes the characters at which what follows cannot match. *)
Lemma lazy_dots_skip {R} d (K : cursor → option R) x : ∀ sn y g,
  Forall (λ a, dot d a = true) x →
  (∀ x1 x2, x = x1 ++ x2 → x2 ≠ [] →
     K (Cursor (reverse x1 ++ sn) (x2 ++ y) g) = None) →
  lazy_dots d K sn (x ++ y) g = lazy_dots d K (reverse x ++ sn) y g.
Proof.
  induction x as [|a x IH]; intros sn y g Hx HK; [done|].
  apply Forall_cons in Hx as [Ha Hx].
  rewrite <- app_comm_cons, lazy_dots_cons.
  pose proof (HK [] (a :: x) eq_refl) as H0. simpl in H0.
  rewrite H0 by done. rewrite Ha.
  rewrite IH; [by rewrite reverse_cons, <- app_assoc|done|].
  intros x1 x2 -> Hne. specialize (HK (a :: x1) x2).
  rewrite reverse_cons, <- app_assoc in HK. by apply HK.
Qed.

(** [.*?] stops at the first position from which what follows
    matches. *)
Lemma lazy_dots_Some {R} d (K : cursor → option R) t : ∀ sn g r,
  lazy_dots d K sn t g = Some r →
  ∃ x y, t = x ++ y ∧ Forall (λ a, dot d a = true) x ∧
         K (Cursor (reverse x ++ sn) y g) = Some r ∧
         ∀ x1 x2, x = x1 ++ x2 → x2 ≠ [] →
                  K (Cursor (reverse x1 ++ sn) (x2 ++ y) g) = None.
Proof.
  induction t as [|a t IH]; intros sn g r H.
  - simpl in H. destruct (K (Cursor sn [] g)) as [r'|] eqn:HK; [|done].
    exists [], []. split_and!; [done|done|simpl; congruence|].
    intros x1 x2 E Hne. by apply eq_sym, app_eq_nil in E as [_ ->].
  - rewrite lazy_dots_cons in H.
    destruct (K (Cursor sn (a :: t) g)) as [r'|] eqn:HK.
    + exists [], (a :: t). split_and!; [done|done|simpl; congruence|].
      intros x1 x2 E Hne. by apply eq_sym, app_eq_nil in E as [_ ->].
    + destruct (dot d a) eqn:Ha; [|done].
      apply IH in H as (x & y & -> & Hx & Hr & Hmin).
      exists (a :: x), y. split_and!; [done|by constructor| |].
      * by rewrite reverse_cons, <- app_assoc.
      * intros [|b x1] x2 E Hne; simpl in E.
        -- by subst x2.
        -- injection E as <- ->. rewrite reverse_cons, <- app_assoc.
           by apply Hmin.
Qed.

Lemma lazy_dots_is_Some {R} d (K : cursor → option R) x : ∀ sn y g,
  Forall (λ a, dot d a = true) x →
  is_Some (K (Cursor (reverse x ++ sn) y g)) →
  is_Some (lazy_dots d K sn (x ++ y) g).
Proof.
  induction x as [|a x IH]; intros sn y g Hx [r Hr].
  - exists r. by apply lazy_dots_here.
  - apply Forall_cons in Hx as [Ha Hx].
    rewrite <- app_comm_cons, lazy_dots_cons.
    destruct (K (Cursor sn _ g)); [done|]. rewrite Ha.
    apply IH; [done|]. exists r. by rewrite reverse_cons, <- app_assoc in Hr.
Qed.

(** The scan of what follows a lazy run does not depend on the text
    already passed, when what follows it does not. *)
Lemma lazy_dots_rest d (K1 K2 : cursor → option cursor) t : ∀ s1 s2 g,
  (∀ x y, t = x ++ y →
     rest_of <$> K1 (Cursor (reverse x ++ s1) y g) =
     rest_of <$> K2 (Cursor (reverse x ++ s2) y g)) →
  rest_of <$> lazy_dots d K1 s1 t g = rest_of <$> lazy_dots d K2 s2 t g.
Proof.
  induction t as [|a t IH]; intros s1 s2 g HK.
  - specialize (HK [] [] eq_refl). simpl in *.
    by destruct (K1 _), (K2 _).
  - rewrite !lazy_dots_cons. pose proof (HK [] (a :: t) eq_refl) as H0.
    simpl in H0. destruct (K1 _), (K2 _); try done.
    destruct (dot d a); [|done]. apply IH. intros x y ->.
    specialize (HK (a :: x) y eq_refl).
    by rewrite reverse_cons, <- !app_assoc in HK.
Qed.

(** *** What closes a link *)

Local Abbreviation closes := (λ c : cursor, run (Lit (txt "]]")) c Some).

Lemma link_end_unfold s y g :
  link_end (Cursor s y g) =
  match (match strip_prefix (txt "|") y with
         | Some y' => lazy_dots false closes (txt "|" ++ s) y' g
         | None => None
         end) with
  | Some c => Some c
  | None => closes (Cursor s y g)
  end.
Proof. done. Qed.

Lemma closes_Some s y g c :
  closes (Cursor s y g) = Some c →
  y = txt "]]" ++ ahead c ∧ group1 c = g.
Proof.
  cbn [run ahead seen group1].
  destruct (strip_prefix (txt "]]") y) as [y'|] eqn:E; [|done].
  apply strip_prefix_Some in E as ->. by intros [= <-].
Qed.

Lemma closes_rest s1 s2 y g :
  rest_of <$> closes (Cursor s1 y g) = rest_of <$> closes (Cursor s2 y g).
Proof. cbn [run ahead seen group1]. by destruct (strip_prefix _ y). Qed.

Lemma closes_other s a y g : a ≠ "]"%char → closes (Cursor s (a :: y) g) = None.
Proof. intros Ha. cbn [run ahead]. simpl. by rewrite decide_False by congruence. Qed.

Lemma link_end_Some s y g c :
  link_end (Cursor s y g) = Some c →
  group1 c = g ∧
  ∃ alias, y = alias ++ txt "]]" ++ ahead c ∧ (NL ∉ alias) ∧
           (alias = [] ∨ ∃ d, alias = "|"%char :: d).
Proof.
  rewrite link_end_unfold.
  destruct (strip_prefix (txt "|") y) as [y'|] eqn:E.
  - apply strip_prefix_Some in E as ->.
    destruct (lazy_dots false closes _ y' g) as [c'|] eqn:Hl.
    + intros [= ->].
      apply lazy_dots_Some in Hl as (x & y2 & -> & Hx & [-> Hg]%closes_Some & _).
      split; [done|]. exists ("|"%char :: x). split_and!.
      * reflexivity.
      * apply not_elem_of_cons. split; [done|]. by apply Forall_dot_line.
      * right. by eexists.
    + intros [E Hg]%closes_Some. split; [done|].
      exists []. split_and!; [done|apply not_elem_of_nil|by left].
  - intros [E' Hg]%closes_Some. split; [done|].
    exists []. split_and!; [done|apply not_elem_of_nil|by left].
Qed.

Lemma link_end_bar s d post g :
  NL ∉ d → is_Some (link_end (Cursor s ("|"%char :: d ++ txt "]]" ++ post) g)).
Proof.
  intros Hd. rewrite link_end_unfold.
  assert (strip_prefix (txt "|") ("|"%char :: d ++ txt "]]" ++ post) =
          Some (d ++ txt "]]" ++ post)) as -> by done.
  destruct (lazy_dots_is_Some false closes d (txt "|" ++ s) (txt "]]" ++ post) g)
    as [c ->]; [by apply Forall_dot_line|done|done].
Qed.

Lemma link_end_alias s display post g :
  NL ∉ display → "]"%char ∉ display →
  ∃ c, link_end (Cursor s ("|"%char :: display ++ txt "]]" ++ post) g) = Some c ∧
       ahead c = post ∧ group1 c = g.
Proof.
  intros Hn Hb. rewrite link_end_unfold.
  assert (strip_prefix (txt "|") ("|"%char :: display ++ txt "]]" ++ post) =
          Some (display ++ txt "]]" ++ post)) as -> by done.
  rewrite lazy_dots_skip.
  - erewrite lazy_dots_here; [|done]. by eexists.
  - by apply Forall_dot_line.
  - intros x1 [|a x2] -> Hne; [done|]. rewrite <- app_comm_cons.
    apply closes_other. intros ->. apply Hb.
    apply elem_of_app. right. by left.
Qed.

Lemma link_end_rest s1 s2 y g :
  rest_of <$> link_end (Cursor s1 y g) = rest_of <$> link_end (Cursor s2 y g).
Proof.
  rewrite !link_end_unfold. pose proof (closes_rest s1 s2 y g) as Hc.
  destruct (strip_prefix (txt "|") y) as [y'|]; [|done].
  pose proof (lazy_dots_rest false closes closes y' (txt "|" ++ s1) (txt "|" ++ s2) g)
    as Hl.
  destruct (lazy_dots false closes (txt "|" ++ s1) y' g),
           (lazy_dots false closes (txt "|" ++ s2) y' g);
    try done; try (by (discriminate Hl; intros; apply closes_rest));
    apply Hl; intros; apply closes_rest.
Qed.

(** *** One link *)

Local Abbreviation after_target sn :=
  (λ c' : cursor,
     link_end
       (Cursor (seen c') (ahead c')
          (Some (reverse (take (length (seen c') - length (txt "[[" ++ sn))
                            (seen c')))))).

Lemma after_target_at sn x y g :
  after_target sn (Cursor (reverse x ++ txt "[[" ++ sn) y g) =
  link_end (Cursor (reverse x ++ txt "[[" ++ sn) y (Some x)).
Proof.
  cbn [seen ahead]. do 3 f_equal.
  rewrite length_app, Nat.add_sub, take_app_length. apply reverse_involutive.
Qed.

Lemma wiki_link_alias sn target display post :
  Forall plain_char target → NL ∉ display → "]"%char ∉ display →
  ∃ c, match_here wiki_link_pattern sn
         (txt "[[" ++ target ++ "|"%char :: display ++ txt "]]" ++ post) = Some c ∧
       ahead c = post ∧ group1 c = Some target.
Proof.
  intros Ht Hn Hb. rewrite wiki_link_match, strip_prefix_app.
  rewrite lazy_dots_skip.
  - destruct (link_end_alias (reverse target ++ txt "[[" ++ sn) display post
                (Some target)) as (c & Hc & Ha & Hg); [done..|].
    exists c. split; [|done]. apply lazy_dots_here. by rewrite after_target_at.
  - apply Forall_dot_line. intros Hin. rewrite Forall_forall in Ht.
    by destruct (Ht _ Hin).
  - intros x1 [|a x2] -> Hne; [done|]. rewrite after_target_at.
    rewrite <- app_comm_cons. apply link_end_plain.
    apply Forall_app in Ht as [_ Ht]. by apply Forall_cons in Ht as [Ha _].
Qed.

Lemma links_of_alias target display post links :
  Forall plain_char target → NL ∉ display → "]"%char ∉ display →
  links_of post links →
  links_of (txt "[[" ++ target ++ "|"%char :: display ++ txt "]]" ++ post)
           (target :: links).
Proof.
  intros Ht Hn Hb Hpost [|fuel] sn Hf; [simpl in Hf; lia|].
  cbn [findall_loop].
  destruct (wiki_link_alias sn target display post) as (c & -> & Ha & Hg); [done..|].
  rewrite Ha, Hg. cbn [default].
  rewrite !length_app in Hf |- *. simpl in Hf |- *.
  rewrite !length_app in Hf |- *. simpl in Hf |- *.
  rewrite decide_True by lia. f_equal. apply Hpost. lia.
Qed.

Lemma match_here_rest s1 s2 ah :
  rest_of <$> match_here wiki_link_pattern s1 ah =
  rest_of <$> match_here wiki_link_pattern s2 ah.
Proof.
  rewrite !wiki_link_match. destruct (strip_prefix (txt "[[") ah) as [t|]; [|done].
  apply lazy_dots_rest. intros x y ->. rewrite !after_target_at.
  apply link_end_rest.
Qed.

(** The links found do not depend on the text that precedes the
    scan. *)
Lemma findall_loop_seen fuel : ∀ s1 s2 ah,
  findall_loop fuel wiki_link_pattern s1 ah =
  findall_loop fuel wiki_link_pattern s2 ah.
Proof.
  induction fuel as [|fuel IH]; intros s1 s2 ah; [done|]. cbn [findall_loop].
  pose proof (match_here_rest s1 s2 ah) as H.
  destruct (match_here wiki_link_pattern s1 ah) as [c1|],
           (match_here wiki_link_pattern s2 ah) as [c2|]; try done.
  - injection H as Ha Hg. rewrite Ha, Hg. case_decide.
    + f_equal. apply IH.
    + destruct ah; [done|]. f_equal. apply IH.
  - destruct ah; [done|]. apply IH.
Qed.

Lemma links_of_parse content file_path :
  links_of content (parse_links content file_path).
Proof.
  intros fuel sn Hf. unfold parse_links, findall.
  rewrite (findall_loop_seen fuel sn []).
  apply findall_loop_fuel; lia.
Qed.

(** *** What a match of the link pattern is *)

Lemma wiki_link_Some sn ah c :
  match_here wiki_link_pattern sn ah = Some c →
  ∃ link alias,
    ah = txt "[[" ++ link ++ alias ++ txt "]]" ++ ahead c ∧
    group1 c = Some link ∧
    (NL ∉ alias) ∧ (alias = [] ∨ ∃ d, alias = "|"%char :: d) ∧
    (NL ∉ link) ∧ ("|"%char ∉ link) ∧ occurs (txt "]]") link = false.
Proof.
  rewrite wiki_link_match.
  destruct (strip_prefix (txt "[[") ah) as [t|] eqn:E; [|done].
  apply strip_prefix_Some in E as ->.
  intros (x & y & -> & Hx & Hr & Hmin)%lazy_dots_Some.
  rewrite after_target_at in Hr.
  apply link_end_Some in Hr as (Hg & alias & -> & Hna & Halias).
  apply Forall_dot_line in Hx.
  exists x, alias. split_and!; try done.
  - intros (x1 & x3 & ->)%list_elem_of_split.
    specialize (Hmin x1 ("|"%char :: x3) eq_refl). rewrite after_target_at in Hmin.
    destruct (link_end_bar (reverse x1 ++ txt "[[" ++ sn) (x3 ++ alias) (ahead c)
                (Some x1)) as [r Hr].
    { rewrite elem_of_app. intros [H|H]; [|done]. apply Hx.
      apply elem_of_app. right. by right. }
    rewrite <- app_assoc in Hr. rewrite <- app_comm_cons in Hmin.
    rewrite Hr in Hmin. by discriminate Hmin.
  - apply not_true_is_false. intros (x1 & x3 & ->)%occurs_true.
    specialize (Hmin x1 (txt "]]" ++ x3) eq_refl). rewrite after_target_at in Hmin.
    rewrite <- app_assoc, link_end_close in Hmin. by discriminate Hmin.
Qed.

Lemma findall_loop_sound fuel : ∀ sn ah link,
  link ∈ findall_loop fuel wiki_link_pattern sn ah →
  ∃ pre alias post,
    ah = pre ++ txt "[[" ++ link ++ alias ++ txt "]]" ++ post ∧
    (NL ∉ alias) ∧ (alias = [] ∨ ∃ d, alias = "|"%char :: d) ∧
    (NL ∉ link) ∧ ("|"%char ∉ link) ∧ occurs (txt "]]") link = false.
Proof.
  induction fuel as [|fuel IH]; intros sn ah link; [by intros ?%elem_of_nil|].
  cbn [findall_loop].
  assert (∀ a ah' sn', ah = a :: ah' →
            link ∈ findall_loop fuel wiki_link_pattern sn' ah' →
            ∃ pre alias post,
              ah = pre ++ txt "[[" ++ link ++ alias ++ txt "]]" ++ post ∧
              (NL ∉ alias) ∧ (alias = [] ∨ ∃ d, alias = "|"%char :: d) ∧
              (NL ∉ link) ∧ ("|"%char ∉ link) ∧ occurs (txt "]]") link = false)
    as Hnext.
  { intros a ah' sn' -> (pre & alias & post & -> & H)%IH.
    by exists (a :: pre), alias, post. }
  destruct (match_here wiki_link_pattern sn ah) as [c|] eqn:Hm.
  - apply wiki_link_Some in Hm as (l & alias & Hah & Hg & H).
    assert (link = l →
            ∃ pre alias post,
              ah = pre ++ txt "[[" ++ link ++ alias ++ txt "]]" ++ post ∧
              (NL ∉ alias) ∧ (alias = [] ∨ ∃ d, alias = "|"%char :: d) ∧
              (NL ∉ link) ∧ ("|"%char ∉ link) ∧ occurs (txt "]]") link = false)
      as Hhere.
    { intros ->. by exists [], alias, (ahead c). }
    rewrite Hg. cbn [default]. case_decide.
    + intros [->|Hin]%elem_of_cons; [by apply Hhere|].
      apply IH in Hin as (pre & alias' & post & Hpost & H').
      exists (txt "[[" ++ l ++ alias ++ txt "]]" ++ pre), alias', post.
      split; [|done]. rewrite Hah, Hpost. by rewrite <- !app_assoc.
    + destruct ah as [|a ah'].
      * intros [->|?%elem_of_nil]%elem_of_cons; [by apply Hhere|done].
      * intros [->|Hin]%elem_of_cons; [by apply Hhere|]. by eapply Hnext.
  - destruct ah as [|a ah']; [by intros ?%elem_of_nil|]. intros Hin. by eapply Hnext.
Qed.

End LinkFacts.

(** ** Whole runs *)

Module RunFacts.
Import Str StrFacts ReFacts SubFacts IoFacts IndexFacts RenderFacts.
Import UpdateFacts PipelineFacts ConvergeFacts.

Lemma for_each_app {A S} (l1 l2 : list A) (body : A → S → io S) acc v :
  for_each (l1 ++ l2) body acc v =
  match for_each l1 body acc v with
  | (Ok acc', v') => for_each l2 body acc' v'
  | (Raise e, v') => (Raise e, v')
  end.
Proof.
  revert acc v. induction l1 as [|x l1 IH]; intros acc v; [done|].
  simpl. unfold bind. destruct (body x acc v) as [[acc'|e] v']; [apply IH|done].
Qed.

(** The scan stops at the first file it cannot read. *)
Lemma generate_backlinks_unreadable set_iter l1 p l2 v :
  (∀ f, f ∈ l1 → is_Some (files v !! f)) → files v !! p = None →
  generate_backlinks_with set_iter (l1 ++ p :: l2) v =
    (Raise (FileNotFoundError p), v).
Proof.
  intros Hl1 Hp. unfold generate_backlinks_with.
  rewrite for_each_app.
  pose proof (generate_backlinks_with_run set_iter (l1 ++ p :: l2) (files v) l1 [] v
                eq_refl Hl1) as H.
  cbv zeta in H |- *. rewrite H.
  rewrite for_each_cons. unfold bind. by rewrite read_file_None.
Qed.


(** *** What the write pass leaves alone *)

Lemma update_file_frame mode t refs v :
  dom (files (update_file mode (t, refs) v).2) = dom (files v) ∧
  ∃ w, written (update_file mode (t, refs) v).2 = written v ++ w ∧
       w `sublist_of` [t].
Proof.
  rewrite update_file_spec.
  assert (dom (files v) = dom (files v) ∧
          ∃ w, written v = written v ++ w ∧ w `sublist_of` [t]) as Hsame.
  { split; [done|]. exists []. split; [by rewrite app_nil_r|apply sublist_nil_l]. }
  destruct refs as [|r refs]; [done|].
  destruct (files v !! t) as [c|] eqn:Hc; [|done].
  destruct (rewrite_content mode (r :: refs) c) as [[c'|]|e]; [|done..].
  simpl. split.
  - by apply dom_insert_lookup_L.
  - by exists [t].
Qed.

Lemma update_files_frame mode bl : ∀ v,
  dom (files (update_files_with_backlinks bl mode v).2) = dom (files v) ∧
  ∃ w, written (update_files_with_backlinks bl mode v).2 = written v ++ w ∧
       w `sublist_of` bl.*1.
Proof.
  induction bl as [|[t refs] bl IH]; intros v.
  - split; [done|]. exists []. split; [by rewrite app_nil_r|done].
  - rewrite update_files_cons.
    assert (∀ w w', w `sublist_of` [t] → w' `sublist_of` bl.*1 →
                    w ++ w' `sublist_of` ((t, refs) :: bl).*1) as Happ.
    { intros w w' H H'. rewrite fmap_cons. by apply (sublist_app w [t]). }
    destruct (update_file_frame mode t refs v) as (Hd & w & Hw & Hs).
    destruct (update_file mode (t, refs) v) as [[[]|e] v1]; simpl in Hd, Hw.
    + destruct (IH v1) as (Hd' & w' & Hw' & Hs').
      split; [congruence|]. exists (w ++ w'). split.
      * by rewrite Hw', Hw, <- app_assoc.
      * by apply Happ.
    + split; [done|]. exists w. split; [done|].
      rewrite <- (app_nil_r w). apply Happ; [done|apply sublist_nil_l].
Qed.

Lemma run_frame a walk fs :
  dom (files (run_main a walk fs).2) = dom fs ∧
  NoDup (written (run_main a walk fs).2).
Proof.
  unfold run_main, main. set (mf := find_markdown_files walk).
  pose proof (generate_backlinks_vault remove_dups mf (Vault fs [])) as Hv.
  fold (generate_backlinks mf) in Hv. unfold bind.
  destruct (generate_backlinks mf (Vault fs [])) as [[bl|e] v] eqn:Hgen;
    simpl in Hv; subst v; [|split; [done|constructor]].
  pose proof (generate_backlinks_readable _ _ _ _ _ Hgen) as Hr.
  destruct (generate_backlinks_index mf (Vault fs []) Hr) as (bl' & Hbl' & Hnd & _).
  rewrite Hgen in Hbl'. injection Hbl' as <-.
  destruct (update_files_frame (mode a) bl (Vault fs [])) as (Hd & w & Hw & Hs).
  split; [done|]. rewrite Hw. simpl. by eapply sublist_NoDup.
Qed.

Lemma run_untouched a walk fs p :
  inbound (find_markdown_files walk) fs p = [] →
  files (run_main a walk fs).2 !! p = fs !! p.
Proof.
  intros Hin. unfold run_main, main.
  set (mf := find_markdown_files walk) in *.
  pose proof (generate_backlinks_vault remove_dups mf (Vault fs [])) as Hv.
  fold (generate_backlinks mf) in Hv.
  unfold bind. destruct (generate_backlinks mf (Vault fs [])) as [[bl|e] v] eqn:Hgen;
    simpl in Hv; subst v; [|done].
  pose proof (generate_backlinks_readable _ _ _ _ _ Hgen) as Hr.
  destruct (generate_backlinks_lookup mf (Vault fs []) Hr) as (bl' & Hbl' & Hlook).
  rewrite Hgen in Hbl'. injection Hbl' as <-.
  specialize (Hlook p). simpl in Hlook. rewrite Hin in Hlook.
  destruct (update_files_untouched (mode a) p bl (Vault fs [])) as [H1 H2]; [|done].
  intros refs v' [x Hx]%bl_lookup_elem_of. congruence.
Qed.

(** *** What a run writes *)







(** *** Notes that share a title *)

Lemma file_title_map_last l1 f l2 :
  (∀ g, g ∈ l2 → extract_note_title g ≠ extract_note_title f) →
  registered (l1 ++ f :: l2) f.
Proof.
  unfold registered. induction l2 as [|g l2 IH] using rev_ind; intros H.
  - change (l1 ++ [f]) with (l1 ++ [f]). rewrite file_title_map_snoc.
    apply lookup_insert_eq.
  - rewrite app_comm_cons, app_assoc, file_title_map_snoc.
    rewrite lookup_insert_ne.
    + apply IH. intros g' Hg'. apply H. apply elem_of_app. by left.
    + apply H. apply elem_of_app. right. by left.
Qed.

Lemma registered_inj l f1 f2 :
  registered l f1 → registered l f2 →
  extract_note_title f1 = extract_note_title f2 → f1 = f2.
Proof. unfold registered. intros H1 H2 E. rewrite E in H1. congruence. Qed.

End RunFacts.

(** ** Rendering and rewriting at the edges *)

Module EdgeFacts.
Import Str StrFacts ReFacts SubFacts IoFacts IndexFacts RenderFacts.
Import UpdateFacts PipelineFacts.

(** *** The separator *)



(** *** Templates *)

(** An unknown escape makes the whole template invalid. *)
Lemma parse_template_bad_escape s c rest :
  BACKSLASH ∉ s → is_ascii_letter c = true → escape_char c = None →
  c ≠ "g"%char →
  parse_template None (s ++ BACKSLASH :: c :: rest) = Failed BadTemplate.
Proof.
  intros Hs Hl He Hg. induction s as [|a s IH].
  - cbn [app parse_template].
    rewrite decide_True by done. rewrite decide_False by done.
    assert (c ≠ "0"%char) as H0 by (intros ->; by vm_compute in Hl).
    rewrite decide_False by done.
    assert (is_digit c = false) as ->.
    { unfold is_ascii_letter, is_digit in *.
      apply bool_decide_eq_true in Hl. apply bool_decide_eq_false. lia. }
    by rewrite He, Hl.
  - apply not_elem_of_cons in Hs as [Ha Hs]. rewrite <- app_comm_cons.
    cbn [parse_template]. rewrite decide_False by done. by rewrite IH.
Qed.

Lemma concat_lines_plain titles :
  Forall (λ t : str, BACKSLASH ∉ t) titles →
  BACKSLASH ∉ concat (entry_line <$> titles).
Proof.
  induction 1 as [|t titles Ht _ IH]; [apply not_elem_of_nil|].
  rewrite fmap_cons. cbn [concat]. unfold entry_line at 1.
  rewrite !elem_of_app. intros [[H|[H|[H|H]]]|H]; try done.
  - by vm_compute in H; repeat (apply elem_of_cons in H as [?|H]; [done|]);
      apply elem_of_nil in H.
  - by vm_compute in H; repeat (apply elem_of_cons in H as [?|H]; [done|]);
      apply elem_of_nil in H.
  - by apply list_elem_of_singleton in H.
Qed.

(** The section rendered for references of which one title holds a
    backslash, the earlier ones none: the text up to that backslash holds
    no other. *)
Lemma new_section_backslash refs1 pre c post path refs2 :
  Forall (λ r : reference, BACKSLASH ∉ r.1) refs1 → BACKSLASH ∉ pre →
  ∃ s rest,
    new_section (refs1 ++ (pre ++ BACKSLASH :: c :: post, path) :: refs2) =
      s ++ BACKSLASH :: c :: rest ∧ BACKSLASH ∉ s.
Proof.
  intros H1 Hpre. rewrite new_section_lines, fmap_app, fmap_cons, fmap_app.
  rewrite concat_app. rewrite fmap_cons. cbn [concat fst].
  exists (HEADING ++ concat (entry_line <$> refs1.*1) ++ txt "- [[" ++ pre).
  eexists. split.
  - unfold entry_line at 2. rewrite <- !app_assoc. by do 4 f_equal.
  - rewrite !elem_of_app. intros [H|[H|[H|H]]]; [| |..|done].
    + by vm_compute in H; repeat (apply elem_of_cons in H as [?|H]; [done|]);
        apply elem_of_nil in H.
    + revert H. apply concat_lines_plain. by apply Forall_fmap.
    + by vm_compute in H; repeat (apply elem_of_cons in H as [?|H]; [done|]);
        apply elem_of_nil in H.
Qed.

End EdgeFacts.

(** ** Repeated runs in append mode *)

Module SettleFacts.
Import Str StrFacts ReFacts SubFacts IoFacts IndexFacts RenderFacts.
Import UpdateFacts PipelineFacts RunFacts EdgeFacts.

(** A note that can be read and holds no heading marker. *)
Local Abbreviation lacks fs :=
  (λ p : str, occurs HEADING <$> (fs : gmap str str) !! p = Some false).









End SettleFacts.

(** ** Properties of the scan *)

Import LineFacts RescanFacts PathFacts LinkFacts RunFacts EdgeFacts.

(** X1.  [find_markdown_files] returns exactly the names ending in
    [.md] that the walk lists, each joined to its directory, and every
    path it returns ends in [.md] itself. *)
Theorem markdown_files_end_in_md walk p :
  (p ∈ find_markdown_files walk ↔
   ∃ root names file, (root, names) ∈ walk ∧ file ∈ names ∧
                      Str.endswith file (txt ".md") = true ∧
                      p = path_join root file) ∧
  (p ∈ find_markdown_files walk → Str.endswith p (txt ".md") = true).
Proof.
  assert (p ∈ find_markdown_files walk ↔
          ∃ root names file, (root, names) ∈ walk ∧ file ∈ names ∧
                             Str.endswith file (txt ".md") = true ∧
                             p = path_join root file) as Hiff.
  { unfold find_markdown_files. rewrite list_elem_of_bind. split.
    - intros ([root names] & Hin & Hw).
      apply list_elem_of_bind in Hin as (file & Hf & Hn).
      destruct (Str.endswith file (txt ".md")) eqn:He;
        [|by apply elem_of_nil in Hf].
      apply list_elem_of_singleton in Hf as ->. by exists root, names, file.
    - intros (root & names & file & Hw & Hn & He & ->).
      exists (root, names). split; [|done]. apply list_elem_of_bind.
      exists file. split; [|done]. rewrite He. by apply list_elem_of_singleton. }
  split; [done|].
  intros (root & names & file & _ & _ & He & ->)%Hiff.
  destruct (path_join_split root file) as (dir & -> & _). by apply endswith_app.
Qed.

Lemma markdown_files_end_in_md_witness :
  Str.endswith (txt "vault/sub/A.md") (txt ".md") = true.
Proof.
  apply (markdown_files_end_in_md
           [(txt "vault", [txt "index.txt"]);
            (txt "vault/sub", [txt "A.md"; txt "B.MD"; txt "md"])]
           (txt "vault/sub/A.md")).
  by_compute.
Defined.

(** X2.  The title of a file [t.md] found in any directory is [t],
    when [t] holds no slash and is not made of dots only. *)
Theorem title_of_found_file root t a :
  "/"%char ∉ t → a ∈ t → a ≠ "."%char →
  extract_note_title (path_join root (t ++ txt ".md")) = t.
Proof.
  intros Hs Ha Hne. unfold extract_note_title.
  rewrite basename_path_join.
  - by apply (splitext_root_md t a).
  - rewrite elem_of_app. intros [H|H]; [done|]. by vm_compute in H;
      repeat (apply elem_of_cons in H as [?|H]; [done|]); apply elem_of_nil in H.
Qed.

Lemma title_of_found_file_witness :
  extract_note_title (path_join (txt "vault/sub") (txt "My.Note v2" ++ txt ".md"))
    = txt "My.Note v2".
Proof.
  apply (title_of_found_file (txt "vault/sub") (txt "My.Note v2") "M"%char);
    by_compute.
Defined.

(** X3.  A title never holds a slash, so a link written as a path, such
    as [[[folder/Note]]], resolves to no note and adds nothing to the
    index. *)
Theorem path_links_never_resolve markdown_files file_path ref :
  ("/"%char ∉ extract_note_title file_path) ∧
  ("/"%char ∈ ref →
   file_title_map markdown_files !! ref = None ∧
   ∀ source bl, add_ref (file_title_map markdown_files) source bl ref = bl).
Proof.
  split; [apply title_no_slash|]. intros Href.
  assert (file_title_map markdown_files !! ref = None) as Hnone.
  { apply file_title_map_None. intros f _ <-. by apply (title_no_slash f). }
  split; [done|]. intros source bl. unfold add_ref. by rewrite Hnone.
Qed.

Lemma path_links_never_resolve_witness :
  file_title_map [txt "vault/folder/Note.md"] !! txt "folder/Note" = None ∧
  ∀ source bl,
    add_ref (file_title_map [txt "vault/folder/Note.md"]) source bl
      (txt "folder/Note") = bl.
Proof.
  apply (path_links_never_resolve [txt "vault/folder/Note.md"]
           (txt "vault/folder/Note.md") (txt "folder/Note")).
  by_compute.
Defined.

(** X4.  [parse_links] passes text that holds no opening bracket,
    returns the target of the next link, with or without display text,
    and goes on after the link: links are returned in the order of the
    text, repeated ones as often as they occur, and the display text is
    dropped. *)
Theorem links_are_found_in_order pre target display post file_path :
  "["%char ∉ pre → Forall plain_char target →
  NL ∉ display → "]"%char ∉ display →
  parse_links (pre ++ txt "[[" ++ target ++ txt "]]" ++ post) file_path =
    target :: parse_links post file_path ∧
  parse_links (pre ++ txt "[[" ++ target ++ "|"%char :: display ++ txt "]]" ++ post)
    file_path = target :: parse_links post file_path.
Proof.
  intros Hpre Ht Hn Hb.
  pose proof (links_of_parse post file_path) as Hpost.
  split; unfold parse_links at 1, findall.
  - apply links_of_skip_all; [done| |lia]. by apply links_of_link.
  - apply links_of_skip_all; [done| |lia]. by apply links_of_alias.
Qed.

Lemma links_are_found_in_order_witness :
  parse_links (txt "see " ++ txt "[[" ++ txt "B" ++ txt "]]" ++
               txt " and [[B]] again") (txt "vault/A.md") =
    txt "B" :: parse_links (txt " and [[B]] again") (txt "vault/A.md") ∧
  parse_links (txt "see " ++ txt "[[" ++ txt "B" ++
               "|"%char :: txt "the B note" ++ txt "]]" ++
               txt " and [[B]] again") (txt "vault/A.md") =
    txt "B" :: parse_links (txt " and [[B]] again") (txt "vault/A.md").
Proof.
  apply (links_are_found_in_order (txt "see ") (txt "B") (txt "the B note")
           (txt " and [[B]] again") (txt "vault/A.md")); by_compute.
Defined.

(** X5.  Every target that [parse_links] returns stands in the content
    between [[[] and either []]] or a bar followed by display text and
    []]], all on one line; the target holds no newline, no bar and no
    []]]. *)
Theorem links_are_bracketed_on_one_line content file_path link :
  link ∈ parse_links content file_path →
  (∃ pre alias post,
     content = pre ++ txt "[[" ++ link ++ alias ++ txt "]]" ++ post ∧
     (NL ∉ alias) ∧ (alias = [] ∨ ∃ d, alias = "|"%char :: d)) ∧
  (NL ∉ link) ∧ ("|"%char ∉ link) ∧ Str.occurs (txt "]]") link = false.
Proof.
  intros (pre & alias & post & E & H1 & H2 & H3 & H4 & H5)%findall_loop_sound.
  split; [|done]. by exists pre, alias, post.
Qed.

Lemma links_are_bracketed_on_one_line_witness :
  (∃ pre alias post,
     txt "x [[a]b|c|d]] y" = pre ++ txt "[[" ++ txt "a]b" ++ alias ++ txt "]]" ++ post ∧
     (NL ∉ alias) ∧ (alias = [] ∨ ∃ d, alias = "|"%char :: d)) ∧
  (NL ∉ txt "a]b") ∧ ("|"%char ∉ txt "a]b") ∧
  Str.occurs (txt "]]") (txt "a]b") = false.
Proof.
  apply (links_are_bracketed_on_one_line (txt "x [[a]b|c|d]] y") (txt "vault/A.md")
           (txt "a]b")).
  by_compute.
Defined.

(** X6.  The literal-text strategy reports every known title of length
    at least 3 that occurs in the content with no [[[] just before it
    and no []]] just after it, wherever it occurs, also inside a longer
    word. *)
Theorem literal_text_found_anywhere pre title post note_titles :
  title ∈ note_titles → 3 ≤ length title →
  Str.endswith pre (txt "[[") = false →
  Str.startswith post (txt "]]") = false →
  title ∈ find_text_references (pre ++ title ++ post) note_titles.
Proof.
  intros Hin Hlen Hpre Hpost. apply find_text_references_elem.
  split_and!; [done..|]. apply text_reference_search. by exists pre, post.
Qed.

Lemma literal_text_found_anywhere_witness :
  txt "art" ∈ find_text_references (txt "a p" ++ txt "art" ++ txt "y")
                [txt "art"; txt "Beta"].
Proof.
  apply (literal_text_found_anywhere (txt "a p") (txt "art") (txt "y")
           [txt "art"; txt "Beta"]); by_compute || (vm_compute; lia).
Defined.

(** ** Properties of the index *)

(** X8.  When the files can be read, the references the index holds for
    a target are exactly the scanned files whose content refers to the
    title of the target, each with its own title, provided the target
    is the file registered for its title; a note that refers to its own
    title is listed for itself. *)
Theorem index_lists_exactly_the_referrers markdown_files fs target r :
  readable markdown_files fs →
  (r ∈ section_references markdown_files fs target ↔
   registered markdown_files target ∧ r.2 ∈ markdown_files ∧
   r.1 = extract_note_title r.2 ∧ refers_to markdown_files fs target r.2).
Proof.
  intros Hr. unfold section_references.
  destruct (generate_backlinks_lookup markdown_files (Vault fs []) Hr)
    as (bl & -> & Hlook).
  rewrite Hlook. simpl.
  assert (default [] match inbound markdown_files fs target with
                     | [] => None
                     | r0 :: l => Some (r0 :: l)
                     end = inbound markdown_files fs target) as ->.
  { by destruct (inbound markdown_files fs target). }
  unfold inbound. destruct (decide (registered markdown_files target)) as [Hreg|Hreg].
  - rewrite list_elem_of_fmap. split.
    + intros (f & -> & [Hf Hin]%list_elem_of_filter). done.
    + intros (_ & Hin & Ht & Hf). exists r.2. split.
      * destruct r as [r1 r2]. simpl in *. by rewrite Ht.
      * by apply list_elem_of_filter.
  - split; [by intros ?%elem_of_nil|]. by intros [? _].
Qed.

Lemma index_lists_exactly_the_referrers_witness :
  (txt "Self", txt "vault/Self.md") ∈
    section_references [txt "vault/Self.md"]
      {[txt "vault/Self.md" := txt "I am [[Self]]"]} (txt "vault/Self.md").
Proof.
  apply (index_lists_exactly_the_referrers [txt "vault/Self.md"]
           {[txt "vault/Self.md" := txt "I am [[Self]]"]} (txt "vault/Self.md")
           (txt "Self", txt "vault/Self.md")); [by_compute|].
  split_and!; by_compute.
Defined.

(** X9.  The references recorded for a target do not depend on the
    order in which the set of reference titles of a file is iterated:
    any enumeration of the set gives every target the references that
    [generate_backlinks] gives it. *)
Theorem set_order_does_not_matter set_iter markdown_files fs :
  enumerates set_iter → readable markdown_files fs →
  ∃ bl bl',
    generate_backlinks_with set_iter markdown_files (Vault fs []) =
      (Ok bl, Vault fs []) ∧
    generate_backlinks markdown_files (Vault fs []) = (Ok bl', Vault fs []) ∧
    ∀ t, bl_lookup t bl = bl_lookup t bl'.
Proof.
  intros Hset Hr.
  destruct (generate_backlinks_with_lookup set_iter markdown_files (Vault fs [])
              Hset Hr) as (bl & Hbl & Hlook).
  destruct (generate_backlinks_lookup markdown_files (Vault fs []) Hr)
    as (bl' & Hbl' & Hlook').
  exists bl, bl'. split_and!; [done..|]. intros t. by rewrite Hlook, Hlook'.
Qed.

Lemma set_order_does_not_matter_witness :
  ∃ bl bl',
    generate_backlinks_with (λ l, reverse (remove_dups l))
      (find_markdown_files scenario_walk) (Vault scenario []) =
      (Ok bl, Vault scenario []) ∧
    generate_backlinks (find_markdown_files scenario_walk) (Vault scenario []) =
      (Ok bl', Vault scenario []) ∧
    ∀ t, bl_lookup t bl = bl_lookup t bl'.
Proof.
  apply (set_order_does_not_matter (λ l, reverse (remove_dups l))
           (find_markdown_files scenario_walk) scenario); [|by_compute].
  intros l. split.
  - rewrite reverse_Permutation. apply NoDup_remove_dups.
  - intros x. by rewrite elem_of_reverse, elem_of_remove_dups.
Defined.

(** X10.  Of two scanned notes that share a title, the one scanned
    last is the one registered for the title; the other one is given no
    reference and a run leaves it as it was. *)
Theorem last_note_of_a_title_wins a walk fs l1 f l2 g :
  find_markdown_files walk = l1 ++ f :: l2 →
  (∀ h, h ∈ l2 → extract_note_title h ≠ extract_note_title f) →
  g ≠ f → extract_note_title g = extract_note_title f →
  registered (find_markdown_files walk) f ∧
  section_references (find_markdown_files walk) fs g = [] ∧
  files (run_main a walk fs).2 !! g = fs !! g.
Proof.
  intros Hmf Hl2 Hne Ht.
  assert (registered (find_markdown_files walk) f) as Hreg.
  { rewrite Hmf. by apply file_title_map_last. }
  assert (inbound (find_markdown_files walk) fs g = []) as Hin.
  { unfold inbound. rewrite decide_False; [done|].
    intros Hg. apply Hne. by eapply registered_inj. }
  split_and!; [done| |by apply run_untouched].
  unfold section_references.
  destruct (generate_backlinks (find_markdown_files walk) (Vault fs []))
    as [[bl|e] v] eqn:Hgen; [|done].
  pose proof (generate_backlinks_readable _ _ _ _ _ Hgen) as Hr.
  destruct (generate_backlinks_lookup _ (Vault fs []) Hr) as (bl' & Hbl' & Hlook).
  rewrite Hgen in Hbl'. injection Hbl' as <- _.
  rewrite Hlook. simpl. by rewrite Hin.
Qed.

Lemma last_note_of_a_title_wins_witness :
  registered (find_markdown_files shared_walk) (txt "v/b/X.md") ∧
  section_references (find_markdown_files shared_walk) shared_vault
    (txt "v/a/X.md") = [] ∧
  files (run_main (default_args (txt "v")) shared_walk shared_vault).2
    !! txt "v/a/X.md" = shared_vault !! txt "v/a/X.md".
Proof.
  apply (last_note_of_a_title_wins (default_args (txt "v")) shared_walk shared_vault
           [txt "v/Z.md"; txt "v/a/X.md"] (txt "v/b/X.md") [] (txt "v/a/X.md"));
    [by vm_compute|by intros h ?%elem_of_nil|by_compute|by vm_compute].
Defined.

(** ** Properties of a run *)

(** X11.  When a markdown file cannot be read, the run stops with the
    error of the first such file and has written nothing: all files are
    read before any is written. *)
Theorem unreadable_file_aborts_the_run a walk fs l1 p l2 :
  find_markdown_files walk = l1 ++ p :: l2 →
  readable l1 fs → fs !! p = None →
  run_main a walk fs = (Raise (FileNotFoundError p), Vault fs []).
Proof.
  intros Hmf Hl1 Hp. unfold run_main, main, generate_backlinks, bind.
  rewrite Hmf, generate_backlinks_unreadable; [done| |done].
  unfold readable in Hl1. by rewrite Forall_forall in Hl1.
Qed.

Lemma unreadable_file_aborts_the_run_witness :
  run_main replace_args scenario_walk broken_vault =
  (Raise (FileNotFoundError (txt "vault/B.md")), Vault broken_vault []).
Proof.
  apply (unreadable_file_aborts_the_run replace_args scenario_walk broken_vault
           [txt "vault/A.md"] (txt "vault/B.md") [txt "vault/C.md"]);
    [by vm_compute|by_compute|by vm_compute].
Defined.

(** X12.  A run neither creates nor removes a file, and writes no file
    twice, in both modes and also when it stops with an error. *)
Theorem run_keeps_the_file_set a walk fs :
  dom (files (run_main a walk fs).2) = dom fs ∧
  NoDup (written (run_main a walk fs).2).
Proof. apply run_frame. Qed.







(** ** Properties of the write pass *)

(** X16.  A note counts as having a section exactly when its content
    holds the heading [## Backlinks] followed by a blank line, wherever
    that stands: the rest of the section pattern always matches. *)
Theorem section_is_detected_by_its_marker content :
  is_Some (search backlink_section_pattern content) ↔
  Str.occurs HEADING content = true.
Proof. apply section_search. Qed.



(** X18.  A rendered section is read back by [parse_links] as the
    titles it lists, in their order, when no title holds a newline, a
    bar or a closing bracket; appended to a note, it adds these titles
    to the links that the note had. *)
Theorem rendered_section_reads_back refs content file_path :
  Forall (λ r : reference, Forall plain_char r.1) refs →
  parse_links (new_section refs) file_path = refs.*1 ∧
  parse_links (separated content ++ new_section refs) file_path =
    parse_links content file_path ++ refs.*1.
Proof.
  intros Hplain. pose proof (links_of_section refs Hplain) as Hl. split.
  - unfold parse_links, findall. apply Hl. lia.
  - by apply parse_links_separated.
Qed.

Lemma rendered_section_reads_back_witness :
  parse_links (new_section [(txt "A", txt "vault/A.md"); (txt "C", txt "vault/C.md")])
    (txt "vault/B.md") =
    [(txt "A", txt "vault/A.md"); (txt "C", txt "vault/C.md")].*1 ∧
  parse_links (separated (txt "see [[D]]") ++
               new_section [(txt "A", txt "vault/A.md"); (txt "C", txt "vault/C.md")])
    (txt "vault/B.md") =
    parse_links (txt "see [[D]]") (txt "vault/B.md") ++
    [(txt "A", txt "vault/A.md"); (txt "C", txt "vault/C.md")].*1.
Proof.
  apply (rendered_section_reads_back
           [(txt "A", txt "vault/A.md"); (txt "C", txt "vault/C.md")]
           (txt "see [[D]]") (txt "vault/B.md")).
  by_compute.
Defined.

(** X19.  In replace mode the rendered section is handed to [re.sub]
    as a replacement template: when the first backslash of the titles
    comes before an ASCII letter that names no escape, the update of a
    note that has a section raises [re.error] and writes nothing. *)
Theorem replace_raises_on_unknown_escape t refs1 pre c post path refs2 v content :
  files v !! t = Some content → Str.occurs HEADING content = true →
  Forall (λ r : reference, BACKSLASH ∉ r.1) refs1 → BACKSLASH ∉ pre →
  is_ascii_letter c = true → escape_char c = None → c ≠ "g"%char →
  update_file replace
    (t, refs1 ++ (pre ++ BACKSLASH :: c :: post, path) :: refs2) v =
    (Raise ReError, v).
Proof.
  intros Hc Ho H1 Hpre Hl He Hg.
  destruct (new_section_backslash refs1 pre c post path refs2 H1 Hpre)
    as (s & rest & Hsec & Hs).
  rewrite update_file_spec, Hc.
  assert (rewrite_content replace
            (refs1 ++ (pre ++ BACKSLASH :: c :: post, path) :: refs2) content =
          Raise ReError) as ->.
  { unfold rewrite_content. apply section_search in Ho as [m ->].
    unfold sub. rewrite Hsec. by rewrite parse_template_bad_escape. }
  by destruct refs1.
Qed.

Lemma replace_raises_on_unknown_escape_witness :
  update_file replace
    (txt "vault/T.md",
     [] ++ (txt "notes" ++ BACKSLASH :: "d"%char :: txt "raft",
            txt "vault/odd.md") :: []) escape_vault =
    (Raise ReError, escape_vault).
Proof.
  apply (replace_raises_on_unknown_escape (txt "vault/T.md") [] (txt "notes")
           "d"%char (txt "raft") (txt "vault/odd.md") [] escape_vault section_A);
    [by vm_compute|by vm_compute|by_compute|by_compute|by vm_compute|
     by vm_compute|by_compute].
Defined.



(** ** Properties of repeated runs *)

Import SettleFacts.




